(** * pwcheck: the analysis core and the result projector

    A shallow embedding of [packages/core] ([analyze]) and of the pure
    part of the dashboard component (the lookups and [allResults] of
    [App]), with the properties of the written specification stated and
    proved over it. *)

From Stdlib Require Import ZArith NArith String Ascii DecimalString Lia.
From stdpp Require Import base list sorting gmap.

Local Open Scope Z_scope.
Local Open Scope nat_scope.

(** ** JavaScript strings

    A JavaScript string is a sequence of UTF-16 code units and [s.length]
    counts code units.  A code unit is modelled as a number in [N]; every
    function below is total on [N], so no range side condition is carried
    around. *)

Definition codeunit := N.
Abbreviation jsstring := (list N).

(** String literals of the source are written [lit "..."]. *)
Definition lit (s : string) : jsstring :=
  N_of_ascii <$> list_ascii_of_string s.
Arguments lit s%_string.

Definition in_range (lo hi c : codeunit) : bool :=
  ((lo <=? c) && (c <=? hi))%N.

Definition isLowerAZ (c : codeunit) : bool := in_range 97%N 122%N c.
Definition isUpperAZ (c : codeunit) : bool := in_range 65%N 90%N c.
Definition isDigit09 (c : codeunit) : bool := in_range 48%N 57%N c.

(** Lower-casing of the letters [A]-[Z], code unit by code unit.  The
    source calls [String.prototype.toLowerCase], a function of the
    platform that folds every cased letter of Unicode and looks at the
    context (the final sigma); that function is a parameter of the
    component below and is what the search of [allResults] applies.
    [toLowerCaseAscii] stands for it only where the lower-cased string is
    tested for an ASCII literal made of letters other than [i] and [k]
    (["length"], ["no uppercase"], ["common pattern"], ...): no code unit
    outside [A]-[Z] lower-cases to such a letter, and none to the empty
    string, so the two functions give these tests the same result. *)
Definition lowerUnit (c : codeunit) : codeunit :=
  if isUpperAZ c then (c + 32)%N else c.
Definition toLowerCaseAscii (s : jsstring) : jsstring := lowerUnit <$> s.

(** [Canonicalize] of a regular expression with the [i] flag and without
    the [u] flag: upper-casing, never from outside ASCII into ASCII.  The
    patterns of the source are ASCII, and for them the comparison below
    agrees with the one of the language on every input code unit. *)
Definition canonicalize (c : codeunit) : codeunit :=
  if isLowerAZ c then (c - 32)%N else c.

(** [/[...]/.test(s)] for a one-character class: some code unit of [s] is
    in the class. *)
Definition hasLower (s : jsstring) : bool := existsb isLowerAZ s.
Definition hasUpper (s : jsstring) : bool := existsb isUpperAZ s.
Definition hasDigit (s : jsstring) : bool := existsb isDigit09 s.
Definition hasSymbol (s : jsstring) : bool :=
  existsb (λ c, negb (isUpperAZ c || isLowerAZ c || isDigit09 c)) s.

(** A literal pattern matched, ignoring case, at the start of [s]. *)
Fixpoint matchLiteralCI (pat s : jsstring) : bool :=
  match pat, s with
  | [], _ => true
  | _ :: _, [] => false
  | p :: pat', c :: s' =>
      (canonicalize p =? canonicalize c)%N && matchLiteralCI pat' s'
  end.

(** [/p1|p2|.../i.test(s)]: the alternatives are tried at every start
    position, left to right. *)
Fixpoint testAlternativesCI (alts : list jsstring) (s : jsstring) : bool :=
  existsb (λ p, matchLiteralCI p s) alts
  || match s with
     | [] => false
     | _ :: s' => testAlternativesCI alts s'
     end.

Definition commonWords : list jsstring :=
  [lit "password"; lit "qwerty"; lit "1234"].

Definition hasCommonPattern (s : jsstring) : bool :=
  testAlternativesCI commonWords s.

(** [s.startsWith(p)]. *)
Fixpoint startsWith (p s : jsstring) : bool :=
  match p, s with
  | [], _ => true
  | _ :: _, [] => false
  | a :: p', b :: s' => (a =? b)%N && startsWith p' s'
  end.

(** [s.includes(q)]. *)
Fixpoint includes (q s : jsstring) : bool :=
  startsWith q s
  || match s with
     | [] => false
     | _ :: s' => includes q s'
     end.

(** [String(n)] for an integer [n] that a number holds exactly and
    prints digit by digit (up to 2^53 in magnitude).  Beyond that the
    language rounds the digits and, from 10^21 on, prints an exponent;
    the fractions a number can hold are not carried by the model. *)
Definition numberToString (n : Z) : jsstring :=
  lit (NilZero.string_of_int (Z.to_int n)).

(** ** Data model of the core *)

Record Entry := mkEntry {
  site : jsstring;
  username : jsstring;
  password : jsstring
}.

Record WeakFinding := mkWeakFinding {
  index : nat;
  wf_site : jsstring;
  wf_username : jsstring;
  reasons : list jsstring
}.

(** The anonymous [{ site, username }] object of a reuse group. *)
Record Account := mkAccount {
  acc_site : jsstring;
  acc_username : jsstring
}.

Record ReuseGroup := mkReuseGroup {
  count : nat;
  sites : list Account
}.

Record Summary := mkSummary {
  total : nat;
  weak : nat;
  reusedGroups : nat;
  reusedAccounts : nat
}.

Record Report := mkReport {
  summary : Summary;
  weakFindings : list WeakFinding;
  reuseGroups : list ReuseGroup
}.

(** ** [Array.prototype.push], [sort] and the insertion-ordered [Map] *)

Definition push {A} (l : list A) (x : A) : list A := l ++ [x].

(** [Array.prototype.sort(cmp)] is stable; for a comparator that is a
    consistent ordering its result is the stable arrangement.  The model
    inserts from the right, and an element moves past exactly the
    elements it has to follow ([cmp x y > 0]). *)
Section ArraySort.
Context {A : Type} (cmp : A → A → Z).

Fixpoint sortInsert (x : A) (l : list A) : list A :=
  match l with
  | [] => [x]
  | y :: l' => if (0 <? cmp x y)%Z then y :: sortInsert x l' else x :: l
  end.

Definition arraySort (l : list A) : list A := foldr sortInsert [] l.
End ArraySort.

(** A [Map] iterates in the order in which its keys were first set; it is
    an association list without repeated keys. *)
Section OrderedMap.
Context {V : Type}.

Fixpoint mapHas (k : jsstring) (m : list (jsstring * V)) : bool :=
  match m with
  | [] => false
  | (k', _) :: m' => if decide (k' = k) then true else mapHas k m'
  end.

Fixpoint mapGet (k : jsstring) (m : list (jsstring * V)) : option V :=
  match m with
  | [] => None
  | (k', v) :: m' => if decide (k' = k) then Some v else mapGet k m'
  end.

(** [set] keeps the position of a key that is already there. *)
Fixpoint mapSet (k : jsstring) (v : V) (m : list (jsstring * V))
  : list (jsstring * V) :=
  match m with
  | [] => [(k, v)]
  | (k', v') :: m' =>
      if decide (k' = k) then (k, v) :: m' else (k', v') :: mapSet k v m'
  end.
End OrderedMap.

(** ** [analyze] *)

(** The callback of [entries.map] in [analyze]: the six checks, in the
    order of the source, each pushing its label. *)
Definition weakCheckReasons (pw : jsstring) : list jsstring :=
  let reasons := [] in
  let reasons :=
    if length pw <? 12 then push reasons (lit "Length < 12") else reasons in
  let reasons :=
    if negb (hasLower pw) then push reasons (lit "No lowercase") else reasons in
  let reasons :=
    if negb (hasUpper pw) then push reasons (lit "No uppercase") else reasons in
  let reasons :=
    if negb (hasDigit pw) then push reasons (lit "No number") else reasons in
  let reasons :=
    if negb (hasSymbol pw) then push reasons (lit "No symbol") else reasons in
  let reasons :=
    if hasCommonPattern pw then push reasons (lit "Common pattern") else reasons in
  reasons.

Definition weakCheck (idx : nat) (e : Entry) : option WeakFinding :=
  let reasons := weakCheckReasons (password e) in
  if 0 <? length reasons
  then Some (mkWeakFinding idx (site e) (username e) reasons)
  else None.

(** [entries.map(...).filter(x => x !== null)]. *)
Definition analyzeWeakFindings (entries : list Entry) : list WeakFinding :=
  omap id (imap weakCheck entries).

(** One turn of the grouping loop: create the key with an empty array if
    it is new, then push the account onto the array stored under it. *)
Definition groupStep (m : list (jsstring * list Account)) (e : Entry)
  : list (jsstring * list Account) :=
  let key := password e in
  let m := if negb (mapHas key m) then mapSet key [] m else m in
  match mapGet key m with
  | Some arr => mapSet key (push arr (mkAccount (site e) (username e))) m
  | None => m
  end.

Definition analyzeMap (entries : list Entry)
  : list (jsstring * list Account) :=
  foldl groupStep [] entries.

(** The loop over the map that pushes the groups of two or more. *)
Definition collectStep (groups : list ReuseGroup)
    (kv : jsstring * list Account) : list ReuseGroup :=
  if 2 <=? length kv.2
  then push groups (mkReuseGroup (length kv.2) kv.2)
  else groups.

Definition collectGroups (m : list (jsstring * list Account))
  : list ReuseGroup :=
  foldl collectStep [] m.

(** The comparator [(a, b) => b.count - a.count]. *)
Definition byCountDesc (a b : ReuseGroup) : Z :=
  (Z.of_nat (count b) - Z.of_nat (count a))%Z.

Definition analyzeReuseGroups (entries : list Entry) : list ReuseGroup :=
  arraySort byCountDesc (collectGroups (analyzeMap entries)).

Definition analyze (entries : list Entry) : Report :=
  let weakFindings := analyzeWeakFindings entries in
  let reuseGroups := analyzeReuseGroups entries in
  let reusedGroups := length reuseGroups in
  let reusedAccounts := foldl (λ acc g, acc + count g) 0 reuseGroups in
  mkReport
    (mkSummary (length entries) (length weakFindings)
               reusedGroups reusedAccounts)
    weakFindings
    reuseGroups.

(** ** The dashboard component: pure helpers *)

(** A row of the parsed CSV. *)
Record Row := mkRow {
  row_name : jsstring;
  row_url : jsstring;
  row_username : jsstring;
  row_password : jsstring;
  row_note : jsstring
}.

Definition keyOf (site username : jsstring) : jsstring :=
  site ++ lit "||" ++ username.

Inductive IssueMode := IssueAll | IssueReuse | IssueWeak.
Inductive SortMode := SortRisk | SortDomain | SortReuseCount.
Inductive Risk := LOW | MEDIUM | HIGH.

Global Instance IssueMode_eq_dec : EqDecision IssueMode.
Proof. solve_decision. Defined.
Global Instance SortMode_eq_dec : EqDecision SortMode.
Proof. solve_decision. Defined.
Global Instance Risk_eq_dec : EqDecision Risk.
Proof. solve_decision. Defined.

Definition riskLabel (reuseCount : nat) (isWeak : bool) : Risk :=
  if (10 <=? reuseCount) && isWeak then HIGH
  else if (2 <=? reuseCount) && isWeak then MEDIUM
  else if 10 <=? reuseCount then MEDIUM
  else if isWeak then MEDIUM
  else LOW.

Definition riskScore (reuseCount : nat) (isWeak : bool) : nat :=
  reuseCount * 10 + (if isWeak then 15 else 0).

(** Truthiness of a string: it is not empty. *)
Definition truthy (s : jsstring) : bool :=
  match s with [] => false | _ :: _ => true end.

(** [password] is what [Map.get] returned: [None] stands for
    [undefined].  [minLength] is the number held by the component; the
    model carries the integers. *)
Definition adjustWeakReasons (coreReasons : list jsstring)
    (password : option jsstring) (minLength : Z) : list jsstring :=
  let reasons := coreReasons in
  let pwLen := from_option length 0 password in
  let out :=
    foldl (λ out r,
             if startsWith (lit "length") (toLowerCaseAscii r) then out
             else push out r)
          [] reasons in
  if from_option truthy false password
     && (0 <? pwLen) && (Z.of_nat pwLen <? minLength)%Z
  then (lit "Length < " ++ numberToString minLength) :: out
  else out.

(** [s.trim()]: white space and line terminators of the language. *)
Definition isWhiteSpace (c : codeunit) : bool :=
  in_range 9%N 13%N c
  || bool_decide (c ∈ [32; 160; 5760; 8232; 8233; 8239; 8287; 12288; 65279]%N)
  || in_range 8192%N 8202%N c.

Fixpoint trimStart (s : jsstring) : jsstring :=
  match s with
  | [] => []
  | c :: s' => if isWhiteSpace c then trimStart s' else s
  end.

Definition trim (s : jsstring) : jsstring :=
  reverse (trimStart (reverse (trimStart s))).

(** The value of the [<input type="number">] as the change handler reads
    it from [e.target.value]: the empty string, or the text of a number
    (here: of an integer). *)
Inductive InputValue :=
| ValueEmpty
| ValueNumber (n : Z).

(** [Number(e.target.value || 12)], the argument of [setMinLength]. *)
Definition minLengthOnChange (value : InputValue) : Z :=
  match value with
  | ValueEmpty => 12%Z
  | ValueNumber n => n
  end.

(** One row of the displayed result list. *)
Record ResultRow := mkResultRow {
  key : jsstring;
  rr_site : jsstring;
  domain : jsstring;
  rr_username : jsstring;
  url : option jsstring;
  reuseCount : nat;
  weakReasons : list jsstring;
  isWeak : bool;
  risk : Risk
}.

(** ** The dashboard component: the memoised values of [App]

    [new URL(site).hostname], [String.prototype.localeCompare] and
    [String.prototype.toLowerCase] belong to the platform; they are
    parameters of the development.  [None] for the host name stands for
    the exception of the [URL] constructor. *)
Section App.
Variable urlHostname : jsstring → option jsstring.
Variable localeCompare : jsstring → jsstring → Z.
Variable toLowerCase : jsstring → jsstring.

Definition asDomainLabel (site : jsstring) : jsstring :=
  if matchLiteralCI (lit "http://") site
     || matchLiteralCI (lit "https://") site
  then match urlHostname site with
       | Some hostname => if truthy hostname then hostname else site
       | None => site
       end
  else site.

(** [r.name || r.url]. *)
Definition nameOrUrl (r : Row) : jsstring :=
  if truthy (row_name r) then row_name r else row_url r.

Definition rowBySite (rows : list Row) (site : jsstring) : option Row :=
  List.find (λ r, bool_decide (nameOrUrl r = site)) rows.

Definition passwordByKey (entries : list Entry) : gmap jsstring jsstring :=
  foldl (λ map e, <[keyOf (site e) (username e) := password e]> map)
        ∅ entries.

Definition reuseCountByKey (report : Report) : gmap jsstring nat :=
  foldl (λ map g,
           let cnt := count g in
           foldl (λ map s,
                    let k := keyOf (acc_site s) (acc_username s) in
                    if bool_decide (k ≠ lit "||") then <[k := cnt]> map
                    else map)
                 map (sites g))
        ∅ (reuseGroups report).

(** The body of the loop of [weakAdjustedByKey].  The stored object
    [{ reasons }] is modelled by its one field. *)
Definition weakAdjustedStep (passwordByKey : gmap jsstring jsstring)
    (minLength : Z) (map : gmap jsstring (list jsstring)) (w : WeakFinding)
  : gmap jsstring (list jsstring) :=
  let k := keyOf (wf_site w) (wf_username w) in
  let pw := passwordByKey !! k in
  let reasons := adjustWeakReasons (reasons w) pw minLength in
  if 0 <? length reasons then <[k := reasons]> map else map.

Definition weakAdjustedByKey (report : Report)
    (passwordByKey : gmap jsstring jsstring) (minLength : Z)
  : gmap jsstring (list jsstring) :=
  foldl (weakAdjustedStep passwordByKey minLength) ∅ (weakFindings report).

(** The body of the loop of [allResults]; a [continue] leaves
    [results] as it is. *)
Definition resultStep (rows : list Row)
    (reuseCountByKey : gmap jsstring nat)
    (weakAdjustedByKey : gmap jsstring (list jsstring))
    (issueMode : IssueMode) (query : jsstring)
    (results : list ResultRow) (e : Entry) : list ResultRow :=
  let k := keyOf (site e) (username e) in
  let reuseCount := default 0 (reuseCountByKey !! k) in
  let weak := weakAdjustedByKey !! k in
  let weakReasons := default [] weak in
  let isWeak := 0 <? length weakReasons in
  if bool_decide (issueMode = IssueReuse) && (reuseCount <? 2) then results
  else if bool_decide (issueMode = IssueWeak) && negb isWeak then results
  else
    let r := rowBySite rows (site e) in
    let url :=
      match r with
      | Some r => if truthy (row_url r) then Some (row_url r) else None
      | None => None
      end in
    let q := toLowerCase (trim query) in
    let hay :=
      toLowerCase (asDomainLabel (site e) ++ lit " " ++ site e ++ lit " "
                   ++ username e ++ lit " " ++ default [] url) in
    if truthy q && negb (includes q hay) then results
    else
      let risk := riskLabel reuseCount isWeak in
      push results
        (mkResultRow k (site e) (asDomainLabel (site e)) (username e) url
                     reuseCount weakReasons isWeak risk).

(** The comparator handed to [results.sort]. *)
Definition resultCompare (sortMode : SortMode) (a b : ResultRow) : Z :=
  match sortMode with
  | SortDomain => localeCompare (domain a) (domain b)
  | SortReuseCount => (Z.of_nat (reuseCount b) - Z.of_nat (reuseCount a))%Z
  | SortRisk =>
      (Z.of_nat (riskScore (reuseCount b) (isWeak b))
       - Z.of_nat (riskScore (reuseCount a) (isWeak a)))%Z
  end.

(** [allResults], with the memoised values it depends on recomputed
    from the entries, the CSV rows and the four controls. *)
Definition allResults (entries : list Entry) (rows : list Row)
    (minLength : Z) (issueMode : IssueMode) (sortMode : SortMode)
    (query : jsstring) : list ResultRow :=
  let report := analyze entries in
  let reuseCounts := reuseCountByKey report in
  let weakAdjusted :=
    weakAdjustedByKey report (passwordByKey entries) minLength in
  let results :=
    foldl (resultStep rows reuseCounts weakAdjusted issueMode query)
          [] entries in
  arraySort (resultCompare sortMode) results.
End App.

(** ** The wording of the specification

    Definitions that follow the specification, not the source; the
    theorems below compare the two. *)

(** The decision table of the risk label, one row per entry, read from
    the top: the first row whose guard holds gives the label. *)
Definition riskTable : list ((nat → bool → bool) * Risk) :=
  [ (λ reuseCount isWeak, (10 <=? reuseCount) && isWeak, HIGH);
    (λ reuseCount isWeak, (2 <=? reuseCount) && isWeak, MEDIUM);
    (λ reuseCount isWeak, (10 <=? reuseCount) && negb isWeak, MEDIUM);
    (λ reuseCount isWeak, isWeak && (reuseCount <? 2), MEDIUM) ].

Fixpoint firstMatch (table : list ((nat → bool → bool) * Risk))
    (reuseCount : nat) (isWeak : bool) : Risk :=
  match table with
  | [] => LOW
  | (guard, label) :: table' =>
      if guard reuseCount isWeak then label
      else firstMatch table' reuseCount isWeak
  end.

Definition entryKey (e : Entry) : jsstring := keyOf (site e) (username e).

(** Findings compared by the position they record. *)
Definition indexLt (a b : WeakFinding) : Prop := index a < index b.

(** The rules of the weakness classifier, in the order in which the
    specification lists them, with their labels. *)
Inductive Rule :=
| RuleLength
| RuleLowercase
| RuleUppercase
| RuleDigit
| RuleSymbol
| RuleCommonPattern.

Global Instance Rule_eq_dec : EqDecision Rule.
Proof. solve_decision. Defined.

Definition ruleOrder : list Rule :=
  [RuleLength; RuleLowercase; RuleUppercase; RuleDigit; RuleSymbol;
   RuleCommonPattern].

Definition ruleLabel (r : Rule) : jsstring :=
  match r with
  | RuleLength => lit "Length < 12"
  | RuleLowercase => lit "No lowercase"
  | RuleUppercase => lit "No uppercase"
  | RuleDigit => lit "No number"
  | RuleSymbol => lit "No symbol"
  | RuleCommonPattern => lit "Common pattern"
  end.

(** The code unit of an ASCII character. *)
Definition code (a : ascii) : codeunit := N_of_ascii a.
Arguments code a%_char.

Definition isSubstring (w s : jsstring) : Prop :=
  ∃ pre post, s = pre ++ w ++ post.

(** When a password violates a rule, in the words of the specification. *)
Definition violates (pw : jsstring) (r : Rule) : Prop :=
  match r with
  | RuleLength => length pw < 12
  | RuleLowercase => ∀ c, c ∈ pw → ¬ (code "a" ≤ c ≤ code "z")%N
  | RuleUppercase => ∀ c, c ∈ pw → ¬ (code "A" ≤ c ≤ code "Z")%N
  | RuleDigit => ∀ c, c ∈ pw → ¬ (code "0" ≤ c ≤ code "9")%N
  | RuleSymbol =>
      ∀ c, c ∈ pw →
           (code "A" ≤ c ≤ code "Z")%N ∨ (code "a" ≤ c ≤ code "z")%N
           ∨ (code "0" ≤ c ≤ code "9")%N
  | RuleCommonPattern =>
      isSubstring (lit "password") (toLowerCaseAscii pw)
      ∨ isSubstring (lit "qwerty") (toLowerCaseAscii pw)
      ∨ isSubstring (lit "1234") (toLowerCaseAscii pw)
  end.

(** The test the source makes for each rule. *)
Definition ruleFlagged (pw : jsstring) (r : Rule) : bool :=
  match r with
  | RuleLength => length pw <? 12
  | RuleLowercase => negb (hasLower pw)
  | RuleUppercase => negb (hasUpper pw)
  | RuleDigit => negb (hasDigit pw)
  | RuleSymbol => negb (hasSymbol pw)
  | RuleCommonPattern => hasCommonPattern pw
  end.

(** A pattern character that case folding leaves alone or that is a
    lower-case letter: the characters of the common words. *)
Definition plainUnit (p : codeunit) : bool := isLowerAZ p || isDigit09 p.

(** The distinct values of a list, in the order in which they are first
    seen. *)
Fixpoint firstSeen (l : list jsstring) : list jsstring :=
  match l with
  | [] => []
  | x :: l' => x :: filter (λ y, y ≠ x) (firstSeen l')
  end.

Definition accountOf (e : Entry) : Account :=
  mkAccount (site e) (username e).

(** The accounts that use the password [p], in entry order. *)
Definition accountsWith (entries : list Entry) (p : jsstring)
  : list Account :=
  accountOf <$> filter (λ e, password e = p) entries.

(** The passwords of two entries or more, in first-seen order, and the
    group of each. *)
Definition reusedPasswords (entries : list Entry) : list jsstring :=
  filter (λ p, 2 ≤ length (accountsWith entries p))
         (firstSeen (password <$> entries)).

Definition groupFor (entries : list Entry) (p : jsstring) : ReuseGroup :=
  mkReuseGroup (length (accountsWith entries p)) (accountsWith entries p).

(** The map that holds [f k] under every key [k] of [ks]. *)
Definition tabulate {V} (f : jsstring → V) (ks : list jsstring)
  : list (jsstring * V) :=
  (λ k, (k, f k)) <$> ks.

(** The candidate row of an entry: its reuse count and adjusted reasons
    looked up under its key, weak when the reasons are not empty, the
    risk label computed from the two. *)
Definition candidateRow (urlHostname : jsstring → option jsstring)
    (rows : list Row) (reuseCounts : gmap jsstring nat)
    (weakAdjusted : gmap jsstring (list jsstring)) (e : Entry) : ResultRow :=
  let reuseCount := default 0 (reuseCounts !! entryKey e) in
  let weakReasons := default [] (weakAdjusted !! entryKey e) in
  let isWeak := 0 <? length weakReasons in
  mkResultRow (entryKey e) (site e) (asDomainLabel urlHostname (site e))
    (username e)
    (r ← rowBySite rows (site e);
     if truthy (row_url r) then Some (row_url r) else None)
    reuseCount weakReasons isWeak (riskLabel reuseCount isWeak).

(** The issue-mode predicate. *)
Definition issueKeeps (issueMode : IssueMode) (r : ResultRow) : bool :=
  match issueMode with
  | IssueAll => true
  | IssueReuse => 2 <=? reuseCount r
  | IssueWeak => isWeak r
  end.

(** The search predicate: an empty lower-cased trimmed query keeps every
    row; another one has to occur in the lower-cased text made of domain
    label, site, user name and URL.  [toLowerCase] is the platform's
    function. *)
Definition searchKeeps (toLowerCase : jsstring → jsstring)
    (query : jsstring) (r : ResultRow) : bool :=
  let q := toLowerCase (trim query) in
  negb (truthy q)
  || includes q (toLowerCase (domain r ++ lit " " ++ rr_site r ++ lit " "
                              ++ rr_username r ++ lit " "
                              ++ default [] (url r))).

(** The risk score of a row, from the fields the row has now. *)
Definition rowScore (r : ResultRow) : nat :=
  riskScore (reuseCount r) (isWeak r).

(** The length reason worded with a threshold. *)
Definition lengthReason (minLength : Z) : jsstring :=
  lit "Length < " ++ numberToString minLength.

(** The baseline reasons of a password without the reason of the length
    rule. *)
Definition otherReasons (pw : jsstring) : list jsstring :=
  filter (λ r, r ≠ ruleLabel RuleLength) (weakCheckReasons pw).

(** The policy-adjusted reasons of a password: the length reason of the
    live threshold when the length is not zero and below it, then the
    other baseline reasons. *)
Definition adjustedReasons (pw : jsstring) (minLength : Z) : list jsstring :=
  (if decide (0 < length pw ∧ (Z.of_nat (length pw) < minLength)%Z)
   then [lengthReason minLength] else [])
  ++ otherReasons pw.

(** No other entry of the sequence has the key of the entry at [i]. *)
Definition uniqueKey (entries : list Entry) (i : nat) (e : Entry) : Prop :=
  ∀ j e', entries !! j = Some e' → j ≠ i → entryKey e' ≠ entryKey e.

Definition findingKey (w : WeakFinding) : jsstring :=
  keyOf (wf_site w) (wf_username w).

(** Sample data for the worked examples: a platform without URL parsing
    and with a constant [localeCompare] (neither is used on these
    inputs), three rows with the reuse counts and weakness flags of the
    sort scenario, and a few entries.  The sample text is ASCII, so the
    examples take [toLowerCaseAscii] for the platform's [toLowerCase]. *)
Definition noHostname (site : jsstring) : option jsstring := None.
Definition flatCompare (a b : jsstring) : Z := 0%Z.

Definition rowReused5 : ResultRow :=
  mkResultRow (lit "bank||ann") (lit "bank") (lit "bank") (lit "ann") None
              5 [] false MEDIUM.
Definition rowWeak0 : ResultRow :=
  mkResultRow (lit "mail||bob") (lit "mail") (lit "mail") (lit "bob") None
              0 [lit "No symbol"] true MEDIUM.
Definition rowReused1 : ResultRow :=
  mkResultRow (lit "shop||cy") (lit "shop") (lit "shop") (lit "cy") None
              1 [] false LOW.

Definition entryAlpha : Entry :=
  mkEntry (lit "alpha") (lit "ann") (lit "aaaaaaaaaaaa").
Definition entryBeta : Entry :=
  mkEntry (lit "beta") (lit "bob") (lit "aaaaaaaaaaaa").
(** Fourteen code units, every character class, no common word. *)
Definition entryGamma : Entry :=
  mkEntry (lit "gamma") (lit "cy") (lit "Tr0ub4dor&3xyz").
(** Ten code units, every character class, no common word. *)
Definition entryShort : Entry :=
  mkEntry (lit "delta") (lit "dee") (lit "Abcdefgh1!").
(** Five code units, every character class, no common word. *)
Definition entryTiny : Entry :=
  mkEntry (lit "eps") (lit "eve") (lit "Ab1!x").

(** ** Further functions of the component *)

(** A word character of a regular expression: [[A-Za-z0-9_]]. *)
Definition isWordUnit (c : codeunit) : bool :=
  isUpperAZ c || isLowerAZ c || isDigit09 c || (c =? 95)%N.

(** A literal matched, ignoring case, at the start of [s]: what is left
    of [s] after it. *)
Fixpoint stripLiteralCI (pat s : jsstring) : option jsstring :=
  match pat, s with
  | [], _ => Some s
  | _ :: _, [] => None
  | p :: pat', c :: s' =>
      if (canonicalize p =? canonicalize c)%N then stripLiteralCI pat' s'
      else None
  end.

(** [^https?:\/\/]: what follows the scheme. *)
Definition stripScheme (url : jsstring) : option jsstring :=
  rest ← stripLiteralCI (lit "http") url;
  match stripLiteralCI (lit "s") rest ≫= stripLiteralCI (lit "://") with
  | Some after => Some after
  | None => stripLiteralCI (lit "://") rest
  end.

(** [\b] behind a word character: the end of the string or a character
    that is not a word character. *)
Definition atWordEnd (s : jsstring) : bool :=
  match s with
  | [] => true
  | c :: _ => negb (isWordUnit c)
  end.

(** The six alternatives of [devUrlRegex], in the order of the source. *)
Definition devLocalhost (url : jsstring) : bool :=
  from_option atWordEnd false
    (stripScheme url ≫= stripLiteralCI (lit "localhost")).
Definition devLoopback (url : jsstring) : bool :=
  from_option atWordEnd false
    (stripScheme url ≫= stripLiteralCI (lit "127.0.0.1")).
Definition devAnyAddress (url : jsstring) : bool :=
  from_option atWordEnd false
    (stripScheme url ≫= stripLiteralCI (lit "0.0.0.0")).
Definition dev192 (url : jsstring) : bool :=
  from_option (λ _, true) false
    (stripScheme url ≫= stripLiteralCI (lit "192.168.")).
Definition dev10 (url : jsstring) : bool :=
  from_option (λ _, true) false
    (stripScheme url ≫= stripLiteralCI (lit "10.")).
(** [172\.(1[6-9]|2\d|3[0-1])\.] *)
Definition dev172 (url : jsstring) : bool :=
  match stripScheme url ≫= stripLiteralCI (lit "172.") with
  | Some (a :: b :: rest) =>
      (((a =? 49)%N && in_range 54%N 57%N b)
       || ((a =? 50)%N && isDigit09 b)
       || ((a =? 51)%N && in_range 48%N 49%N b))
      && from_option (λ _, true) false (stripLiteralCI (lit ".") rest)
  | _ => false
  end.

Definition isDevUrl (url : jsstring) : bool :=
  devLocalhost url || devLoopback url || devAnyAddress url
  || dev192 url || dev10 url || dev172 url.

(** [fixTextFor] *)
Definition fixTextFor (reuseCount : nat) (reasons : list jsstring)
    (minLength : Z) : list jsstring :=
  let fixes := [] in
  let fixes :=
    if 2 <=? reuseCount
    then push fixes
           (lit "Change this password so it is unique (currently reused across "
            ++ numberToString (Z.of_nat reuseCount) ++ lit " accounts).")
    else fixes in
  let fixes :=
    if existsb (λ r, startsWith (lit "length") (toLowerCaseAscii r)) reasons
    then push fixes
           (lit "Update to at least " ++ numberToString minLength
            ++ lit " characters.")
    else fixes in
  let fixes :=
    if existsb (λ r, includes (lit "no uppercase") (toLowerCaseAscii r)) reasons
    then push fixes (lit "Add at least one uppercase letter.") else fixes in
  let fixes :=
    if existsb (λ r, includes (lit "no lowercase") (toLowerCaseAscii r)) reasons
    then push fixes (lit "Add at least one lowercase letter.") else fixes in
  let fixes :=
    if existsb (λ r, includes (lit "no number") (toLowerCaseAscii r)) reasons
    then push fixes (lit "Add at least one number.") else fixes in
  let fixes :=
    if existsb (λ r, includes (lit "no symbol") (toLowerCaseAscii r)) reasons
    then push fixes (lit "Add at least one symbol.") else fixes in
  let fixes :=
    if existsb (λ r, includes (lit "common pattern") (toLowerCaseAscii r))
              reasons
    then push fixes
           (lit "Avoid common patterns (dictionary words, predictable substitutions, repeats).")
    else fixes in
  if negb (0 <? length fixes)
  then push fixes (lit "No action needed based on current checks.")
  else fixes.

(** [derivedSummary]; a [Map] has as many keys as entries. *)
Record DerivedSummary := mkDerivedSummary {
  ds_total : nat;
  ds_weak : nat;
  ds_reuseGroups : nat;
  ds_reusedAccounts : nat
}.

Definition derivedSummary (entries : list Entry) (report : Report)
    (reuseCountByKey : gmap jsstring nat)
    (weakAdjustedByKey : gmap jsstring (list jsstring)) : DerivedSummary :=
  let total := length entries in
  let weak := size weakAdjustedByKey in
  let reuseGroups := length (reuseGroups report) in
  let reusedAccounts :=
    foldl (λ reusedAccounts e,
             let k := keyOf (site e) (username e) in
             if 2 <=? default 0 (reuseCountByKey !! k)
             then S reusedAccounts else reusedAccounts)
          0 entries in
  mkDerivedSummary total weak reuseGroups reusedAccounts.

(** The demo masks. *)
Fixpoint splitOn (sep : codeunit) (s : jsstring) : list jsstring :=
  match s with
  | [] => [[]]
  | c :: s' =>
      if (c =? sep)%N then [] :: splitOn sep s'
      else match splitOn sep s' with
           | part :: parts => (c :: part) :: parts
           | [] => [[c]]
           end
  end.

Definition maskDomain (demoMode : bool) (domain : jsstring) : jsstring :=
  if negb demoMode then domain
  else
    let parts := splitOn 46%N domain in
    if length parts <=? 1 then lit "site.example"
    else
      let tld := default [] (last parts) in
      lit "site." ++ tld.

(** [s.indexOf(c)]; [None] stands for -1. *)
Fixpoint indexOfUnit (c : codeunit) (s : jsstring) : option nat :=
  match s with
  | [] => None
  | x :: s' => if (x =? c)%N then Some 0 else S <$> indexOfUnit c s'
  end.

Definition maskUsername (demoMode : bool) (username : jsstring) : jsstring :=
  if negb demoMode then username
  else if negb (truthy username) then []
  else
    match indexOfUnit 64%N username with
    | Some at_ =>
        let dom :=
          let tail := drop (at_ + 1) username in
          if truthy tail then tail else lit "example.com" in
        lit "user@" ++ dom
    | None => lit "user"
    end.

(** [parseCSV] behind the call of [Papa.parse], which belongs to the
    papaparse library: the messages of its errors, the header fields it
    found and the data rows with the five columns, [None] for a cell that
    is not there. *)
Record RawRow := mkRawRow {
  raw_name : option jsstring;
  raw_url : option jsstring;
  raw_username : option jsstring;
  raw_password : option jsstring;
  raw_note : option jsstring
}.

Record PapaResult := mkPapaResult {
  papa_errors : list jsstring;
  papa_fields : option (list jsstring);
  papa_data : list RawRow
}.

Inductive ParseResult :=
| ParseOk (rows : list Row) (entries : list Entry)
| ParseError (error : jsstring).

(** [parts.join(sep)]. *)
Fixpoint join (sep : jsstring) (parts : list jsstring) : jsstring :=
  match parts with
  | [] => []
  | [p] => p
  | p :: parts' => p ++ sep ++ join sep parts'
  end.

Definition requiredColumns : list jsstring :=
  [lit "name"; lit "url"; lit "username"; lit "password"; lit "note"].

Definition trimRow (r : RawRow) : Row :=
  mkRow (trim (default [] (raw_name r))) (trim (default [] (raw_url r)))
        (trim (default [] (raw_username r)))
        (trim (default [] (raw_password r)))
        (trim (default [] (raw_note r))).

(** [{ site: r.name || r.url || "(unknown)", ... }]. *)
Definition rowEntry (r : Row) : Entry :=
  mkEntry (if truthy (row_name r) then row_name r
           else if truthy (row_url r) then row_url r
           else lit "(unknown)")
          (row_username r) (row_password r).

Definition parseCSV (parsed : PapaResult) : ParseResult :=
  match papa_errors parsed with
  | message :: _ => ParseError message
  | [] =>
      let fields := default [] (papa_fields parsed) in
      let missing :=
        List.filter (λ k, negb (bool_decide (k ∈ fields))) requiredColumns in
      if 0 <? length missing
      then ParseError (lit "Missing required columns: "
                       ++ join (lit ", ") missing ++ lit ". Found: "
                       ++ join (lit ", ") fields)
      else
        let rows := trimRow <$> papa_data parsed in
        let entries :=
          List.filter (λ e, truthy (site e) || truthy (username e)
                            || truthy (password e))
                      (rowEntry <$> rows) in
        ParseOk rows entries
  end.

(** The memoised [rows] and [entries] of [App]; [parsed] is [None] while
    no text is loaded. *)
Definition appRows (parsed : option ParseResult) : list Row :=
  match parsed with
  | Some (ParseOk rows _) => rows
  | _ => []
  end.

Definition keepEntry (rows : list Row) (ignoreDevUrls : bool) (e : Entry)
  : bool :=
  if negb (truthy (password e)) || (length (trim (password e)) =? 0)
  then false
  else if ignoreDevUrls
  then match List.find (λ r, bool_decide (nameOrUrl r = site e)) rows with
       | Some row =>
           if truthy (row_url row) && isDevUrl (row_url row) then false
           else true
       | None => true
       end
  else true.

Definition appEntries (parsed : option ParseResult) (ignoreDevUrls : bool)
  : list Entry :=
  match parsed with
  | Some (ParseOk _ entries) =>
      List.filter (keepEntry (appRows parsed) ignoreDevUrls) entries
  | _ => []
  end.

(** ** Notions used by the further properties *)

(** In how many entries the password [p] occurs. *)
Definition occurrences (entries : list Entry) (p : jsstring) : nat :=
  length (filter (λ e, password e = p) entries).

(** The order LOW < MEDIUM < HIGH of the risk labels. *)
Definition riskRank (r : Risk) : nat :=
  match r with
  | LOW => 0
  | MEDIUM => 1
  | HIGH => 2
  end.

Definition accountKey (a : Account) : jsstring :=
  keyOf (acc_site a) (acc_username a).

(** The two loops of [reuseCountByKey], from any map. *)
Definition reuseCountInner (cnt : nat) (map : gmap jsstring nat)
    (accounts : list Account) : gmap jsstring nat :=
  foldl (λ map s,
           let k := keyOf (acc_site s) (acc_username s) in
           if bool_decide (k ≠ lit "||") then <[k := cnt]> map else map)
        map accounts.

Definition reuseCountFold (map : gmap jsstring nat)
    (groups : list ReuseGroup) : gmap jsstring nat :=
  foldl (λ map g, reuseCountInner (count g) map (sites g)) map groups.

(** Some account of the group has the key [k]. *)
Definition groupHasKey (k : jsstring) (g : ReuseGroup) : bool :=
  existsb (λ a, bool_decide (accountKey a = k)) (sites g).

(** The tests of [fixTextFor] on one reason: some suggestion answers
    it. *)
Definition reasonHasFix (r : jsstring) : bool :=
  startsWith (lit "length") (toLowerCaseAscii r)
  || includes (lit "no uppercase") (toLowerCaseAscii r)
  || includes (lit "no lowercase") (toLowerCaseAscii r)
  || includes (lit "no number") (toLowerCaseAscii r)
  || includes (lit "no symbol") (toLowerCaseAscii r)
  || includes (lit "common pattern") (toLowerCaseAscii r).

Definition noActionText : jsstring :=
  lit "No action needed based on current checks.".

(** One conditional [fixes.push(text)] of [fixTextFor], and the seven
    of them. *)
Definition pushIf (b : bool) (text : jsstring) (fixes : list jsstring)
  : list jsstring :=
  if b then push fixes text else fixes.

Definition fixPushes (reuseCount : nat) (reasons : list jsstring)
    (minLength : Z) : list jsstring :=
  pushIf (existsb (λ r, includes (lit "common pattern") (toLowerCaseAscii r))
                  reasons)
    (lit "Avoid common patterns (dictionary words, predictable substitutions, repeats).")
    (pushIf (existsb (λ r, includes (lit "no symbol") (toLowerCaseAscii r)) reasons)
       (lit "Add at least one symbol.")
       (pushIf (existsb (λ r, includes (lit "no number") (toLowerCaseAscii r))
                        reasons)
          (lit "Add at least one number.")
          (pushIf (existsb (λ r, includes (lit "no lowercase")
                                          (toLowerCaseAscii r)) reasons)
             (lit "Add at least one lowercase letter.")
             (pushIf (existsb (λ r, includes (lit "no uppercase")
                                             (toLowerCaseAscii r)) reasons)
                (lit "Add at least one uppercase letter.")
                (pushIf (existsb (λ r, startsWith (lit "length")
                                                  (toLowerCaseAscii r)) reasons)
                   (lit "Update to at least " ++ numberToString minLength
                    ++ lit " characters.")
                   (pushIf (2 <=? reuseCount)
                      (lit "Change this password so it is unique (currently reused across "
                       ++ numberToString (Z.of_nat reuseCount)
                       ++ lit " accounts).")
                      [])))))).

(** A code unit of the text of an integer: a digit or the minus sign. *)
Definition numericUnit (c : codeunit) : bool := isDigit09 c || (c =? 45)%N.

(** A pattern character that is not an upper-case letter. *)
Definition notUpperUnit (p : codeunit) : bool := negb (isUpperAZ p).

(** The text starts, letter case aside, with [http://] or [https://]. *)
Definition hasScheme (pre : jsstring) : Prop :=
  toLowerCaseAscii pre = lit "http://"
  ∨ toLowerCaseAscii pre = lit "https://".

(** The code unit of a decimal digit. *)
Definition digitUnit (d : nat) : codeunit := (48 + N.of_nat d)%N.

(** Text made of ASCII code units.  On such text the platform's
    [toLowerCase] is the lower-casing of [A]-[Z]: [foldsAscii] says so of
    a function. *)
Definition isAsciiUnit (c : codeunit) : bool := (c <? 128)%N.
Definition asciiText (s : jsstring) : bool := forallb isAsciiUnit s.

Definition foldsAscii (toLowerCase : jsstring → jsstring) : Prop :=
  ∀ s, asciiText s = true → toLowerCase s = toLowerCaseAscii s.

(** ** Theorems *)

Section Summary.

Lemma foldl_add_count (gs : list ReuseGroup) (acc : nat) :
  foldl (λ acc g, acc + count g) acc gs = acc + sum_list (count <$> gs).
Proof.
  revert acc. induction gs as [|g gs IH]; intros acc; csimpl.
  - lia.
  - rewrite IH. lia.
Qed.

End Summary.

(** C1. For every entry sequence the summary of the report of [analyze]
    has [total] = the number of entries, [weak] = the number of weak
    findings, [reusedGroups] = the number of reuse groups and
    [reusedAccounts] = the sum of [count] over the reuse groups. *)
Theorem analyze_summary (entries : list Entry) :
  let r := analyze entries in
  total (summary r) = length entries
  ∧ weak (summary r) = length (weakFindings r)
  ∧ reusedGroups (summary r) = length (reuseGroups r)
  ∧ reusedAccounts (summary r) = sum_list (count <$> reuseGroups r).
Proof.
  cbn. repeat split.
  apply (foldl_add_count _ 0).
Qed.

(** C9. [analyze] of the empty entry sequence is the report with the four
    summary counts zero, no weak finding and no reuse group; [analyze] is
    a total function, nothing is raised. *)
Theorem analyze_empty :
  analyze [] = mkReport (mkSummary 0 0 0 0) [] [].
Proof. reflexivity. Qed.

(** C3. For every reuse count and weakness flag the score is
    [reuseCount * 10 + (15 if isWeak else 0)]; the label is the first
    matching row of the decision table, and, row by row: HIGH exactly for
    [reuseCount >= 10] and weak; MEDIUM exactly for weak with
    [2 <= reuseCount < 10], for not weak with [reuseCount >= 10], and for
    weak with [reuseCount < 2]; LOW exactly otherwise.  The label of a
    pair is one value. *)
Theorem riskLabel_table (reuseCount : nat) (isWeak : bool) :
  riskScore reuseCount isWeak = reuseCount * 10 + (if isWeak then 15 else 0)
  ∧ riskLabel reuseCount isWeak = firstMatch riskTable reuseCount isWeak
  ∧ (riskLabel reuseCount isWeak = HIGH ↔ 10 ≤ reuseCount ∧ isWeak = true)
  ∧ (riskLabel reuseCount isWeak = MEDIUM ↔
       (2 ≤ reuseCount < 10 ∧ isWeak = true)
       ∨ (10 ≤ reuseCount ∧ isWeak = false)
       ∨ (isWeak = true ∧ reuseCount < 2))
  ∧ (riskLabel reuseCount isWeak = LOW ↔ reuseCount < 10 ∧ isWeak = false)
  ∧ (∀ l1 l2, riskLabel reuseCount isWeak = l1 →
              riskLabel reuseCount isWeak = l2 → l1 = l2).
Proof.
  split; [reflexivity|].
  split.
  { unfold riskLabel, riskTable, firstMatch.
    destruct isWeak, (10 <=? reuseCount) eqn:H10, (2 <=? reuseCount) eqn:H2,
      (reuseCount <? 2) eqn:Hlt; simpl; try reflexivity.
    all: apply Nat.leb_le in H10 || apply Nat.leb_gt in H10.
    all: apply Nat.leb_le in H2 || apply Nat.leb_gt in H2.
    all: apply Nat.ltb_lt in Hlt || apply Nat.ltb_ge in Hlt.
    all: lia. }
  unfold riskLabel.
  destruct isWeak, (10 <=? reuseCount) eqn:H10, (2 <=? reuseCount) eqn:H2;
    simpl.
  all: apply Nat.leb_le in H10 || apply Nat.leb_gt in H10.
  all: apply Nat.leb_le in H2 || apply Nat.leb_gt in H2.
  all: repeat split; intros; try congruence; try lia; try discriminate.
  all: intuition (try congruence; try lia).
Qed.

Section PasswordLookup.

Lemma passwordByKey_snoc (entries : list Entry) (e : Entry) :
  passwordByKey (entries ++ [e])
  = <[entryKey e := password e]> (passwordByKey entries).
Proof. unfold passwordByKey. by rewrite foldl_app. Qed.

Lemma passwordByKey_app_other (l1 l2 : list Entry) (k : jsstring) :
  (∀ e, e ∈ l2 → entryKey e ≠ k) →
  passwordByKey (l1 ++ l2) !! k = passwordByKey l1 !! k.
Proof.
  induction l2 as [|e l2 IH] using rev_ind; intros Hother.
  - by rewrite app_nil_r.
  - rewrite app_assoc, passwordByKey_snoc.
    rewrite lookup_insert_ne.
    + apply IH. intros e' He'. apply Hother. set_solver.
    + apply Hother. set_solver.
Qed.

Lemma passwordByKey_last (l1 l2 : list Entry) (e : Entry) :
  (∀ e', e' ∈ l2 → entryKey e' ≠ entryKey e) →
  passwordByKey (l1 ++ e :: l2) !! entryKey e = Some (password e).
Proof.
  intros Hother.
  replace (l1 ++ e :: l2) with ((l1 ++ [e]) ++ l2)
    by (by rewrite <- app_assoc).
  rewrite passwordByKey_app_other by done.
  rewrite passwordByKey_snoc. apply lookup_insert_eq.
Qed.

Lemma passwordByKey_none (entries : list Entry) (k : jsstring) :
  (∀ e, e ∈ entries → entryKey e ≠ k) →
  passwordByKey entries !! k = None.
Proof.
  intros H. rewrite <- (app_nil_l entries).
  rewrite passwordByKey_app_other by done. apply lookup_empty.
Qed.

End PasswordLookup.

(** C8. When two entries of the sequence share their key and no entry
    after the second has it, the password lookup holds, under that key,
    the password of the second, later entry: the last write wins. *)
Theorem passwordByKey_last_write_wins
    (before between after : list Entry) (e1 e2 : Entry) :
  entryKey e1 = entryKey e2 →
  (∀ e, e ∈ after → entryKey e ≠ entryKey e2) →
  passwordByKey (before ++ e1 :: between ++ e2 :: after) !! entryKey e1
  = Some (password e2).
Proof.
  intros Hkey Hafter. rewrite Hkey.
  replace (before ++ e1 :: between ++ e2 :: after)
    with ((before ++ e1 :: between) ++ e2 :: after)
    by (by rewrite <- app_assoc).
  by apply passwordByKey_last.
Qed.

(** Two entries for the account [("mail", "ann")]: the lookup holds the
    password of the second one. *)
Lemma passwordByKey_last_write_wins_witness :
  passwordByKey
    ([] ++ mkEntry (lit "mail") (lit "ann") (lit "first-secret")
        :: [mkEntry (lit "shop") (lit "bob") (lit "other")]
        ++ mkEntry (lit "mail") (lit "ann") (lit "second-secret") :: [])
    !! entryKey (mkEntry (lit "mail") (lit "ann") (lit "first-secret"))
  = Some (lit "second-secret").
Proof.
  apply (passwordByKey_last_write_wins []
           [mkEntry (lit "shop") (lit "bob") (lit "other")] []
           (mkEntry (lit "mail") (lit "ann") (lit "first-secret"))
           (mkEntry (lit "mail") (lit "ann") (lit "second-secret"))).
  - reflexivity.
  - intros e He. inversion He.
Defined.

Section WeakFindings.

Lemma weakCheck_Some (idx : nat) (e : Entry) (w : WeakFinding) :
  weakCheck idx e = Some w →
  index w = idx ∧ wf_site w = site e ∧ wf_username w = username e
  ∧ reasons w = weakCheckReasons (password e)
  ∧ weakCheckReasons (password e) ≠ [].
Proof.
  unfold weakCheck. destruct (0 <? length _) eqn:Hlen; [|done].
  intros [= <-]. simpl. repeat split.
  intros Hnil. rewrite Hnil in Hlen. discriminate.
Qed.

Lemma weakCheck_None (idx : nat) (e : Entry) :
  weakCheck idx e = None ↔ weakCheckReasons (password e) = [].
Proof.
  unfold weakCheck. destruct (weakCheckReasons (password e)); simpl.
  - done.
  - split; discriminate.
Qed.

Lemma weakFindings_from (n : nat) (l : list Entry) :
  Forall (λ w, n ≤ index w) (omap id (imap (λ i, weakCheck (n + i)) l))
  ∧ StronglySorted indexLt (omap id (imap (λ i, weakCheck (n + i)) l)).
Proof.
  revert n. induction l as [|e l IH]; intros n.
  - split; constructor.
  - rewrite imap_cons.
    rewrite (imap_ext _ (λ i, weakCheck (S n + i)) l)
      by (intros i x _; simpl; f_equal; lia).
    destruct (IH (S n)) as [Hge Hsorted].
    simpl. destruct (weakCheck (n + 0) e) as [w|] eqn:Hw; simpl.
    + apply weakCheck_Some in Hw as (Hidx & _).
      split.
      * constructor; [lia|].
        eapply Forall_impl; [exact Hge|]. simpl. lia.
      * constructor; [exact Hsorted|].
        eapply Forall_impl; [exact Hge|]. unfold indexLt. simpl. lia.
    + split; [|exact Hsorted].
      eapply Forall_impl; [exact Hge|]. simpl. lia.
Qed.

Lemma elem_of_analyzeWeakFindings (entries : list Entry) (w : WeakFinding) :
  w ∈ analyzeWeakFindings entries ↔
  ∃ e, entries !! index w = Some e ∧ weakCheck (index w) e = Some w.
Proof.
  unfold analyzeWeakFindings. rewrite list_elem_of_omap. split.
  - intros (o & Ho & Heq). simpl in Heq. subst o.
    apply elem_of_lookup_imap in Ho as (i & e & Hw & He).
    symmetry in Hw. pose proof (weakCheck_Some _ _ _ Hw) as (Hi & _).
    subst i. eauto.
  - intros (e & He & Hw). exists (Some w). split; [|done].
    apply elem_of_lookup_imap. eauto.
Qed.

End WeakFindings.

Section WeakFindingsIndex.

Lemma analyzeWeakFindings_sorted (entries : list Entry) :
  StronglySorted indexLt (analyzeWeakFindings entries).
Proof. apply (weakFindings_from 0 entries). Qed.

Lemma analyzeWeakFindings_NoDup_index (entries : list Entry) :
  NoDup (index <$> analyzeWeakFindings entries).
Proof.
  induction (analyzeWeakFindings_sorted entries) as [|w l Hs IH Hall];
    csimpl; constructor.
  - intros Hin. apply list_elem_of_fmap in Hin as (w' & Heq & Hw').
    rewrite Forall_forall in Hall. specialize (Hall _ Hw').
    unfold indexLt in Hall. lia.
  - exact IH.
Qed.

End WeakFindingsIndex.

(** C10. Every weak finding of the report carries as [index] the
    zero-based position of its entry in the input, with the site and the
    user name of that entry and the reasons of its password; the findings
    are in strictly ascending order of [index], hence at most one per
    entry and in input order. *)
Theorem weakFindings_index_ascending (entries : list Entry) :
  Forall (λ w, ∃ e, entries !! index w = Some e
                    ∧ wf_site w = site e ∧ wf_username w = username e
                    ∧ reasons w = weakCheckReasons (password e))
         (weakFindings (analyze entries))
  ∧ StronglySorted (λ a b, index a < index b) (weakFindings (analyze entries))
  ∧ NoDup (index <$> weakFindings (analyze entries)).
Proof.
  split; [|split].
  - apply Forall_forall. intros w Hw. simpl in Hw.
    apply elem_of_analyzeWeakFindings in Hw as (e & He & Hw).
    apply weakCheck_Some in Hw as (_ & ? & ? & ? & _). eauto.
  - apply analyzeWeakFindings_sorted.
  - apply analyzeWeakFindings_NoDup_index.
Qed.

Section Classifier.

Lemma in_range_spec (lo hi c : codeunit) :
  in_range lo hi c = true ↔ (lo ≤ c ≤ hi)%N.
Proof.
  unfold in_range. rewrite andb_true_iff, !N.leb_le. done.
Qed.

Lemma in_range_false (lo hi c : codeunit) :
  in_range lo hi c = false ↔ ¬ (lo ≤ c ≤ hi)%N.
Proof.
  rewrite <- in_range_spec. destruct (in_range lo hi c); split; congruence.
Qed.

Lemma existsb_false_iff {A} (f : A → bool) (l : list A) :
  existsb f l = false ↔ ∀ x, x ∈ l → f x = false.
Proof.
  induction l as [|a l IH]; simpl.
  - split; [intros _ x Hx; inversion Hx|done].
  - rewrite orb_false_iff, IH. split.
    + intros [Ha Hl] x Hx. apply elem_of_cons in Hx as [->|Hx]; auto.
    + intros H. split; [apply H; left|intros x Hx; apply H; by right].
Qed.

Lemma existsb_true_iff {A} (f : A → bool) (l : list A) :
  existsb f l = true ↔ ∃ x, x ∈ l ∧ f x = true.
Proof.
  induction l as [|a l IH]; simpl.
  - split; [discriminate|]. intros (x & Hx & _). inversion Hx.
  - rewrite orb_true_iff, IH. split.
    + intros [Ha|(x & Hx & Hf)]; [exists a|exists x]; split; auto;
        [left|by right].
    + intros (x & Hx & Hf). apply elem_of_cons in Hx as [->|Hx]; eauto.
Qed.

(** Comparing under [Canonicalize] with a plain pattern character is
    comparing the lower-cased input with it. *)
Lemma canonicalize_plain (p c : codeunit) :
  plainUnit p = true →
  (canonicalize p =? canonicalize c)%N = (p =? lowerUnit c)%N.
Proof.
  unfold plainUnit, canonicalize, lowerUnit, isLowerAZ, isUpperAZ, isDigit09.
  intros Hp. apply orb_true_iff in Hp.
  destruct (in_range 97%N 122%N p) eqn:Hpl, (in_range 97%N 122%N c) eqn:Hcl,
    (in_range 65%N 90%N c) eqn:Hcu.
  all: repeat match goal with
       | H : in_range _ _ _ = true |- _ => apply in_range_spec in H
       | H : in_range _ _ _ = false |- _ => apply in_range_false in H
       | H : _ ∨ _ |- _ => destruct H
       end.
  all: try discriminate; try lia.
  all: apply eq_true_iff_eq; rewrite !N.eqb_eq; lia.
Qed.

Lemma matchLiteralCI_prefix (w s : jsstring) :
  forallb plainUnit w = true →
  matchLiteralCI w s = true ↔ ∃ post, toLowerCaseAscii s = w ++ post.
Proof.
  revert s. induction w as [|p w IH]; intros s Hplain; simpl.
  - split; eauto.
  - simpl in Hplain. apply andb_true_iff in Hplain as [Hp Hw].
    destruct s as [|c s]; simpl.
    + split; [discriminate|]. intros (post & Heq). discriminate.
    + rewrite andb_true_iff, canonicalize_plain, N.eqb_eq, IH by done.
      unfold toLowerCaseAscii. csimpl. split.
      * intros (-> & post & ->). eauto.
      * intros (post & Heq). injection Heq as -> Heq. eauto.
Qed.

Lemma testAlternativesCI_substring (alts : list jsstring) (s : jsstring) :
  Forall (λ w, forallb plainUnit w = true) alts →
  testAlternativesCI alts s = true ↔
  ∃ w, w ∈ alts ∧ isSubstring w (toLowerCaseAscii s).
Proof.
  intros Hplain. rewrite Forall_forall in Hplain.
  induction s as [|c s IH].
  - simpl. rewrite orb_false_r, existsb_true_iff. split.
    + intros (w & Hw & Hm). exists w. split; [done|].
      apply matchLiteralCI_prefix in Hm as (post & Hpost); [|auto].
      exists [], post. done.
    + intros (w & Hw & pre & post & Heq). exists w. split; [done|].
      apply matchLiteralCI_prefix; [auto|].
      destruct pre; [|discriminate]. eauto.
  - cbn [testAlternativesCI]. rewrite orb_true_iff, existsb_true_iff, IH.
    split.
    + intros [(w & Hw & Hm)|(w & Hw & pre & post & Heq)].
      * exists w. split; [done|].
        apply matchLiteralCI_prefix in Hm as (post & Hpost); [|auto].
        exists [], post. done.
      * exists w. split; [done|]. exists (lowerUnit c :: pre), post.
        unfold toLowerCaseAscii in *. csimpl. by rewrite Heq.
    + intros (w & Hw & pre & post & Heq). destruct pre as [|x pre].
      * left. exists w. split; [done|].
        apply matchLiteralCI_prefix; [auto|]. eauto.
      * right. exists w. split; [done|]. exists pre, post.
        unfold toLowerCaseAscii in *. csimpl in Heq. by injection Heq.
Qed.

Lemma commonWords_plain :
  Forall (λ w, forallb plainUnit w = true) commonWords.
Proof. repeat constructor. Qed.

(** Each test of the source decides the violation of its rule. *)
Lemma ruleFlagged_violates (pw : jsstring) (r : Rule) :
  ruleFlagged pw r = true ↔ violates pw r.
Proof.
  destruct r; simpl.
  - apply Nat.ltb_lt.
  - rewrite negb_true_iff. unfold hasLower. rewrite existsb_false_iff.
    by setoid_rewrite in_range_false.
  - rewrite negb_true_iff. unfold hasUpper. rewrite existsb_false_iff.
    by setoid_rewrite in_range_false.
  - rewrite negb_true_iff. unfold hasDigit. rewrite existsb_false_iff.
    by setoid_rewrite in_range_false.
  - rewrite negb_true_iff. unfold hasSymbol. rewrite existsb_false_iff.
    apply forall_proper; intros c. apply forall_proper; intros _.
    rewrite negb_false_iff, !orb_true_iff.
    unfold isUpperAZ, isLowerAZ, isDigit09. rewrite !in_range_spec.
    unfold code. simpl. tauto.
  - unfold hasCommonPattern.
    rewrite testAlternativesCI_substring by apply commonWords_plain.
    unfold commonWords. split.
    + intros (w & Hw & Hsub).
      repeat (apply elem_of_cons in Hw as [->|Hw]; [tauto|]).
      inversion Hw.
    + intros [H|[H|H]]; eexists; (split; [|exact H]); set_solver.
Qed.

(** The reasons are the labels of the flagged rules, in rule order. *)
Lemma weakCheckReasons_filter (pw : jsstring) :
  weakCheckReasons pw
  = ruleLabel <$> filter (λ r, ruleFlagged pw r = true) ruleOrder.
Proof.
  unfold weakCheckReasons, ruleOrder.
  rewrite !filter_cons, filter_nil. simpl.
  destruct (length pw <? 12), (hasLower pw), (hasUpper pw), (hasDigit pw),
    (hasSymbol pw), (hasCommonPattern pw); reflexivity.
Qed.

Lemma elem_of_ruleOrder (r : Rule) : r ∈ ruleOrder.
Proof. destruct r; unfold ruleOrder; set_solver. Qed.

End Classifier.

Section ClassifierFindings.

Lemma weakCheckReasons_violated (pw : jsstring) :
  ∃ violated : list Rule,
    weakCheckReasons pw = ruleLabel <$> violated
    ∧ violated `sublist_of` ruleOrder
    ∧ ∀ r, r ∈ violated ↔ violates pw r.
Proof.
  exists (filter (λ r, ruleFlagged pw r = true) ruleOrder).
  split; [apply weakCheckReasons_filter|].
  split; [apply sublist_filter|].
  intros r. rewrite list_elem_of_filter, ruleFlagged_violates.
  pose proof (elem_of_ruleOrder r). tauto.
Qed.

Lemma weakCheckReasons_nil_iff (pw : jsstring) :
  weakCheckReasons pw = [] ↔ ∀ r, ¬ violates pw r.
Proof.
  destruct (weakCheckReasons_violated pw) as (vs & -> & _ & Hvs). split.
  - intros Hnil r Hr. apply Hvs in Hr. destruct vs; [inversion Hr|done].
  - intros Hnone. destruct vs as [|r vs]; [done|].
    destruct (Hnone r). apply Hvs. left.
Qed.

Lemma weakFinding_at (entries : list Entry) (i : nat) (e : Entry) :
  entries !! i = Some e →
  weakCheckReasons (password e) ≠ [] →
  mkWeakFinding i (site e) (username e) (weakCheckReasons (password e))
  ∈ analyzeWeakFindings entries.
Proof.
  intros He Hne. apply elem_of_analyzeWeakFindings. exists e. simpl.
  split; [done|]. unfold weakCheck.
  destruct (weakCheckReasons (password e)); [done|reflexivity].
Qed.

Lemma no_weakFinding_at (entries : list Entry) (i : nat) (e : Entry)
    (w : WeakFinding) :
  entries !! i = Some e →
  weakCheckReasons (password e) = [] →
  w ∈ analyzeWeakFindings entries → index w ≠ i.
Proof.
  intros He Hnil Hw Hidx.
  apply elem_of_analyzeWeakFindings in Hw as (e' & He' & Hw).
  rewrite Hidx, He in He'. injection He' as <-.
  apply weakCheck_Some in Hw as (_ & _ & _ & _ & Hne). done.
Qed.

End ClassifierFindings.

(** C4. For every password, the empty one included, the reasons are the
    labels of exactly the violated rules, in the fixed order length,
    lowercase, uppercase, digit, symbol, common pattern.  An entry that
    violates no rule has no weak finding (and no finding has an empty
    list of reasons), an entry that violates one has a finding.  The
    empty password is flagged by the five length and character-class
    rules and not by the common-pattern rule. *)
Theorem classifier_reasons :
  (∀ pw : jsstring,
      ∃ violated : list Rule,
        weakCheckReasons pw = ruleLabel <$> violated
        ∧ violated `sublist_of` ruleOrder
        ∧ ∀ r, r ∈ violated ↔ violates pw r)
  ∧ (∀ (entries : list Entry) (i : nat) (e : Entry),
        entries !! i = Some e →
        ((∀ r, ¬ violates (password e) r) →
         ∀ w, w ∈ weakFindings (analyze entries) → index w ≠ i)
        ∧ ((∃ r, violates (password e) r) →
           ∃ w, w ∈ weakFindings (analyze entries) ∧ index w = i))
  ∧ (∀ (entries : list Entry) (w : WeakFinding),
        w ∈ weakFindings (analyze entries) → reasons w ≠ [])
  ∧ weakCheckReasons []
    = ruleLabel <$> [RuleLength; RuleLowercase; RuleUppercase; RuleDigit;
                     RuleSymbol]
  ∧ ¬ violates [] RuleCommonPattern.
Proof.
  split; [exact weakCheckReasons_violated|].
  split; [|split; [|split; [reflexivity|]]].
  - intros entries i e He. split.
    + intros Hnone w Hw. simpl in Hw.
      eapply no_weakFinding_at; [exact He| |exact Hw].
      by apply weakCheckReasons_nil_iff.
    + intros (r & Hr). eexists. split.
      * simpl. apply (weakFinding_at entries i e He).
        rewrite weakCheckReasons_nil_iff. intros Hnone. by apply (Hnone r).
      * reflexivity.
  - intros entries w Hw. simpl in Hw.
    apply elem_of_analyzeWeakFindings in Hw as (e & _ & Hw).
    apply weakCheck_Some in Hw as (_ & _ & _ & -> & Hne). done.
  - rewrite <- ruleFlagged_violates. simpl. discriminate.
Qed.

(** The password of twelve lower-case letters of the specification, and a
    password that violates no rule, as the first and second entry. *)
Lemma classifier_reasons_witness :
  weakCheckReasons (lit "aaaaaaaaaaaa")
  = [lit "No uppercase"; lit "No number"; lit "No symbol"]
  ∧ (∃ w, w ∈ weakFindings
              (analyze [mkEntry (lit "a") (lit "u") (lit "aaaaaaaaaaaa");
                        mkEntry (lit "b") (lit "v") (lit "Tr0ub4dor&3xyz")])
          ∧ index w = 0)
  ∧ (∀ w, w ∈ weakFindings
              (analyze [mkEntry (lit "a") (lit "u") (lit "aaaaaaaaaaaa");
                        mkEntry (lit "b") (lit "v") (lit "Tr0ub4dor&3xyz")])
          → index w ≠ 1).
Proof.
  destruct classifier_reasons as (_ & Hfind & _).
  split; [reflexivity|]. split.
  - apply (Hfind _ 0 (mkEntry (lit "a") (lit "u") (lit "aaaaaaaaaaaa")));
      [reflexivity|].
    exists RuleUppercase. apply ruleFlagged_violates. reflexivity.
  - apply (Hfind _ 1 (mkEntry (lit "b") (lit "v") (lit "Tr0ub4dor&3xyz")));
      [reflexivity|].
    intros r. rewrite <- ruleFlagged_violates. destruct r; discriminate.
Defined.

(** Sorting by a numeric key, largest first: what [arraySort] does with a
    comparator that is positive exactly when its first argument has the
    smaller key. *)
Section SortDescending.
Context {A : Type} (sortKey : A → nat) (cmp : A → A → Z).
Hypothesis cmp_pos : ∀ a b, (0 < cmp a b)%Z ↔ sortKey a < sortKey b.

Lemma sortInsert_perm (x : A) (l : list A) : sortInsert cmp x l ≡ₚ x :: l.
Proof.
  induction l as [|y l IH]; simpl; [done|].
  destruct (0 <? cmp x y)%Z; [|done].
  rewrite IH. apply Permutation_swap.
Qed.

Lemma arraySort_perm (l : list A) : arraySort cmp l ≡ₚ l.
Proof.
  induction l as [|x l IH]; simpl; [done|].
  rewrite sortInsert_perm. by rewrite IH.
Qed.

Lemma sortInsert_sorted (x : A) (l : list A) :
  StronglySorted (λ a b, sortKey b ≤ sortKey a) l →
  StronglySorted (λ a b, sortKey b ≤ sortKey a) (sortInsert cmp x l).
Proof.
  induction 1 as [|y l Hs IH Hall]; simpl.
  - repeat constructor.
  - destruct (0 <? cmp x y)%Z eqn:Hc.
    + apply Z.ltb_lt, cmp_pos in Hc. constructor; [exact IH|].
      rewrite sortInsert_perm. constructor; [lia|exact Hall].
    + apply Z.ltb_ge in Hc.
      assert (sortKey y ≤ sortKey x).
      { destruct (decide (sortKey x < sortKey y)) as [Hlt|]; [|lia].
        apply cmp_pos in Hlt. lia. }
      constructor; [by constructor|].
      constructor; [done|].
      eapply Forall_impl; [exact Hall|]. simpl. lia.
Qed.

Lemma arraySort_sorted (l : list A) :
  StronglySorted (λ a b, sortKey b ≤ sortKey a) (arraySort cmp l).
Proof.
  induction l as [|x l IH]; simpl; [constructor|].
  by apply sortInsert_sorted.
Qed.

(** Stability: the elements of one key keep their order. *)
Lemma sortInsert_stable (c : nat) (x : A) (l : list A) :
  filter (λ a, sortKey a = c) (sortInsert cmp x l)
  = filter (λ a, sortKey a = c) (x :: l).
Proof.
  induction l as [|y l IH]; simpl; [done|].
  destruct (0 <? cmp x y)%Z eqn:Hc; [|done].
  apply Z.ltb_lt, cmp_pos in Hc.
  rewrite (filter_cons _ y), IH, !filter_cons.
  repeat case_decide; try done; lia.
Qed.

Lemma arraySort_stable (c : nat) (l : list A) :
  filter (λ a, sortKey a = c) (arraySort cmp l)
  = filter (λ a, sortKey a = c) l.
Proof.
  induction l as [|x l IH]; simpl; [done|].
  rewrite sortInsert_stable, !filter_cons, IH. done.
Qed.

End SortDescending.

Section FirstSeen.

Lemma elem_of_firstSeen (l : list jsstring) (x : jsstring) :
  x ∈ firstSeen l ↔ x ∈ l.
Proof.
  induction l as [|a l IH]; simpl; [done|].
  rewrite !elem_of_cons, list_elem_of_filter, IH.
  destruct (decide (x = a)); tauto.
Qed.

Lemma NoDup_firstSeen (l : list jsstring) : NoDup (firstSeen l).
Proof.
  induction l as [|a l IH]; simpl; constructor.
  - rewrite list_elem_of_filter. tauto.
  - by apply NoDup_filter.
Qed.

(** A value seen before changes nothing; a new value goes to the end. *)
Lemma firstSeen_snoc (l : list jsstring) (x : jsstring) :
  firstSeen (l ++ [x])
  = if decide (x ∈ l) then firstSeen l else firstSeen l ++ [x].
Proof.
  induction l as [|a l IH]; simpl; [done|].
  rewrite IH. destruct (decide (x = a)) as [->|Hne].
  - destruct (decide (a ∈ a :: l)) as [_|Hnin]; [|destruct Hnin; left].
    destruct (decide (a ∈ l)); [done|].
    rewrite filter_app, filter_cons_False, filter_nil, app_nil_r; tauto.
  - destruct (decide (x ∈ l)) as [Hin|Hnin].
    + destruct (decide (x ∈ a :: l)) as [_|Hnin]; [done|].
      destruct Hnin. by right.
    + destruct (decide (x ∈ a :: l)) as [Hin|_].
      { apply elem_of_cons in Hin. tauto. }
      rewrite filter_app, filter_cons_True, filter_nil by done. done.
Qed.

End FirstSeen.

Section Grouping.

Lemma accountsWith_snoc (entries : list Entry) (e : Entry) (p : jsstring) :
  accountsWith (entries ++ [e]) p
  = accountsWith entries p
    ++ (if decide (password e = p) then [accountOf e] else []).
Proof.
  unfold accountsWith. rewrite filter_app, fmap_app, filter_cons, filter_nil.
  by case_decide.
Qed.

Lemma accountsWith_nil (entries : list Entry) (p : jsstring) :
  p ∉ password <$> entries → accountsWith entries p = [].
Proof.
  intros Hnin. unfold accountsWith.
  induction entries as [|e entries IH]; [done|].
  rewrite filter_cons. csimpl in Hnin. rewrite not_elem_of_cons in Hnin.
  destruct Hnin as [Hne Hnin]. rewrite decide_False by done. auto.
Qed.

Context {V : Type}.
Implicit Types (f g : jsstring → V) (ks : list jsstring) (k : jsstring).

Lemma tabulate_ext f g ks :
  (∀ k, k ∈ ks → f k = g k) → tabulate f ks = tabulate g ks.
Proof.
  intros H. unfold tabulate. apply list_fmap_ext.
  intros i k Hk. rewrite (H k); [done|]. by eapply list_elem_of_lookup_2.
Qed.

Lemma mapHas_tabulate f ks k :
  mapHas k (tabulate f ks) = bool_decide (k ∈ ks).
Proof.
  induction ks as [|a ks IH]; simpl; [done|].
  destruct (decide (a = k)) as [->|Ha].
  - symmetry. apply bool_decide_eq_true_2. left.
  - fold (tabulate f ks). rewrite IH. apply bool_decide_ext.
    rewrite elem_of_cons. split; [tauto|]. intros [->|]; done.
Qed.

Lemma mapGet_tabulate f ks k :
  k ∈ ks → mapGet k (tabulate f ks) = Some (f k).
Proof.
  induction ks as [|a ks IH]; simpl; intros Hin; [inversion Hin|].
  destruct (decide (a = k)) as [->|Ha]; [done|].
  apply IH. apply elem_of_cons in Hin as [->|]; done.
Qed.

Lemma mapSet_tabulate_new f ks k (v : V) :
  k ∉ ks → mapSet k v (tabulate f ks) = tabulate f ks ++ [(k, v)].
Proof.
  induction ks as [|a ks IH]; simpl; intros Hnin; [done|].
  apply not_elem_of_cons in Hnin as [Hne Hnin].
  rewrite decide_False by done. f_equal. by apply IH.
Qed.

Lemma mapSet_tabulate_old f ks k (v : V) :
  NoDup ks → k ∈ ks →
  mapSet k v (tabulate f ks)
  = tabulate (λ p, if decide (p = k) then v else f p) ks.
Proof.
  induction ks as [|a ks IH]; simpl; intros Hnd Hin; [inversion Hin|].
  apply NoDup_cons in Hnd as [Hnin Hnd].
  destruct (decide (a = k)) as [->|Ha].
  - f_equal. apply tabulate_ext. intros p Hp.
    rewrite decide_False; [done|]. intros ->. done.
  - f_equal. apply IH; [done|].
    apply elem_of_cons in Hin as [->|]; done.
Qed.

End Grouping.

Section ReuseGroups.

Lemma groupStep_tabulate (entries : list Entry) (e : Entry) :
  groupStep (tabulate (accountsWith entries)
                      (firstSeen (password <$> entries))) e
  = tabulate (accountsWith (entries ++ [e]))
             (firstSeen (password <$> entries ++ [e])).
Proof.
  unfold groupStep. rewrite fmap_app.
  change (password <$> [e]) with [password e].
  rewrite firstSeen_snoc, mapHas_tabulate.
  destruct (decide (password e ∈ password <$> entries)) as [Hin|Hnin].
  - rewrite bool_decide_eq_true_2 by (by apply elem_of_firstSeen). simpl.
    rewrite mapGet_tabulate by (by apply elem_of_firstSeen).
    rewrite mapSet_tabulate_old
      by (apply NoDup_firstSeen || by apply elem_of_firstSeen).
    apply tabulate_ext. intros p _. rewrite accountsWith_snoc.
    unfold push. destruct (decide (p = password e)) as [->|Hne].
    + by rewrite decide_True.
    + rewrite decide_False by done. by rewrite app_nil_r.
  - assert (Hfs : password e ∉ firstSeen (password <$> entries))
      by (by rewrite elem_of_firstSeen).
    rewrite bool_decide_eq_false_2 by done. simpl.
    rewrite mapSet_tabulate_new by done.
    replace (tabulate (accountsWith entries)
                      (firstSeen (password <$> entries))
             ++ [(password e, [])])
      with (tabulate (λ p, if decide (p = password e) then []
                           else accountsWith entries p)
                     (firstSeen (password <$> entries) ++ [password e])).
    2:{ unfold tabulate. rewrite fmap_app. csimpl.
        rewrite decide_True by done. f_equal.
        apply list_fmap_ext. intros i p Hp.
        rewrite decide_False; [done|]. intros ->.
        apply Hfs. by eapply list_elem_of_lookup_2. }
    rewrite mapGet_tabulate by set_solver.
    rewrite decide_True by done.
    rewrite mapSet_tabulate_old.
    + apply tabulate_ext. intros p Hp. rewrite accountsWith_snoc.
      unfold push. destruct (decide (p = password e)) as [->|Hne].
      * rewrite decide_True by done. by rewrite accountsWith_nil.
      * rewrite !decide_False by done. by rewrite app_nil_r.
    + apply NoDup_app. split; [apply NoDup_firstSeen|].
      split; [|apply NoDup_singleton].
      intros p Hp Hp'. apply list_elem_of_singleton in Hp'. by subst.
    + set_solver.
Qed.

(** The map built by the grouping loop: under every password, in
    first-seen order, the accounts that use it, in entry order. *)
Lemma analyzeMap_tabulate (entries : list Entry) :
  analyzeMap entries
  = tabulate (accountsWith entries) (firstSeen (password <$> entries)).
Proof.
  induction entries as [|e entries IH] using rev_ind; [done|].
  unfold analyzeMap in *. rewrite foldl_app. simpl. rewrite IH.
  apply groupStep_tabulate.
Qed.

Lemma collectStep_decide (acc : list ReuseGroup) (k : jsstring)
    (arr : list Account) :
  collectStep acc (k, arr)
  = if decide (2 ≤ length arr)
    then acc ++ [mkReuseGroup (length arr) arr] else acc.
Proof.
  unfold collectStep, push. cbn [snd].
  destruct (Nat.leb_spec 2 (length arr)), (decide (2 ≤ length arr));
    done || lia.
Qed.

Lemma collectGroups_from (f : jsstring → list Account)
    (ks : list jsstring) (acc : list ReuseGroup) :
  foldl collectStep acc (tabulate f ks)
  = acc ++ ((λ k, mkReuseGroup (length (f k)) (f k))
              <$> filter (λ k, 2 ≤ length (f k)) ks).
Proof.
  revert acc. induction ks as [|k ks IH]; intros acc.
  - simpl. by rewrite app_nil_r.
  - change (tabulate f (k :: ks)) with ((k, f k) :: tabulate f ks).
    cbn [foldl]. rewrite IH, filter_cons, collectStep_decide.
    destruct (decide (2 ≤ length (f k))) as [Hge|Hlt]; [|done].
    rewrite fmap_cons. by rewrite <- app_assoc.
Qed.

(** The groups before the sort. *)
Lemma collectGroups_analyzeMap (entries : list Entry) :
  collectGroups (analyzeMap entries)
  = groupFor entries <$> reusedPasswords entries.
Proof.
  rewrite analyzeMap_tabulate. unfold collectGroups.
  by rewrite collectGroups_from.
Qed.

Lemma byCountDesc_pos (a b : ReuseGroup) :
  (0 < byCountDesc a b)%Z ↔ count a < count b.
Proof. unfold byCountDesc. lia. Qed.

Lemma filter_groupFor (entries : list Entry) (c : nat)
    (ps : list jsstring) :
  filter (λ g, count g = c) (groupFor entries <$> ps)
  = groupFor entries
      <$> filter (λ p, length (accountsWith entries p) = c) ps.
Proof.
  induction ps as [|p ps IH]; [done|].
  csimpl. rewrite !filter_cons, IH. simpl.
  destruct (decide (length (accountsWith entries p) = c)); done.
Qed.

End ReuseGroups.

(** C5. For every entry sequence the reuse groups are, up to their
    order, one group for every distinct password that two or more
    entries have, each with the accounts of these entries in entry order
    and with [count] the length of that list; the sequence is sorted by
    [count], largest first, and the groups of one count are in the order
    in which their passwords are first seen. *)
Theorem reuseGroups_spec (entries : list Entry) :
  let groups := reuseGroups (analyze entries) in
  groups ≡ₚ groupFor entries <$> reusedPasswords entries
  ∧ NoDup (reusedPasswords entries)
  ∧ (∀ p, p ∈ reusedPasswords entries ↔
          2 ≤ length (filter (λ e, password e = p) entries))
  ∧ Forall (λ g, count g = length (sites g) ∧ 2 ≤ count g
                 ∧ ∃ p, sites g
                        = accountOf <$> filter (λ e, password e = p) entries)
           groups
  ∧ StronglySorted (λ a b, count b ≤ count a) groups
  ∧ (∀ c, filter (λ g, count g = c) groups
          = groupFor entries
              <$> filter (λ p, length (accountsWith entries p) = c)
                         (reusedPasswords entries)).
Proof.
  cbn zeta. change (reuseGroups (analyze entries))
    with (analyzeReuseGroups entries).
  unfold analyzeReuseGroups. rewrite collectGroups_analyzeMap.
  assert (Hperm : arraySort byCountDesc
                    (groupFor entries <$> reusedPasswords entries)
                  ≡ₚ groupFor entries <$> reusedPasswords entries)
    by apply arraySort_perm.
  split; [exact Hperm|].
  split; [apply NoDup_filter, NoDup_firstSeen|].
  split.
  { intros p. unfold reusedPasswords.
    rewrite list_elem_of_filter, elem_of_firstSeen.
    unfold accountsWith. rewrite length_fmap. split; [tauto|].
    intros Hlen. split; [done|].
    destruct (filter (λ e, password e = p) entries) as [|e l] eqn:Hf;
      [simpl in Hlen; lia|].
    assert (He : e ∈ filter (λ e, password e = p) entries)
      by (rewrite Hf; left).
    apply list_elem_of_filter in He as [<- He].
    apply list_elem_of_fmap. eauto. }
  split.
  { rewrite Hperm. apply Forall_fmap, Forall_forall. intros p Hp. simpl.
    split; [done|]. split; [|by exists p].
    unfold reusedPasswords in Hp. by apply list_elem_of_filter in Hp as [? _]. }
  split.
  { apply (arraySort_sorted count byCountDesc byCountDesc_pos). }
  intros c.
  rewrite (arraySort_stable count byCountDesc byCountDesc_pos).
  apply filter_groupFor.
Qed.

(** Two entries with one password and another entry between them: one
    group of two, the accounts in entry order. *)
Example reuseGroups_two_entries :
  reuseGroups (analyze [entryAlpha; entryGamma; entryBeta])
  = [mkReuseGroup 2 [accountOf entryAlpha; accountOf entryBeta]].
Proof. reflexivity. Qed.

(** The larger group comes first, and two groups of one size stay in the
    order in which their passwords are first seen. *)
Example reuseGroups_order :
  count <$> reuseGroups
              (analyze [entryAlpha; entryShort; entryBeta; entryShort;
                        entryShort])
  = [3; 2]
  ∧ reuseGroups (analyze [entryAlpha; entryShort; entryBeta; entryShort])
    = [mkReuseGroup 2 [accountOf entryAlpha; accountOf entryBeta];
       mkReuseGroup 2 [accountOf entryShort; accountOf entryShort]].
Proof. split; reflexivity. Qed.

Section Projection.
Variable urlHostname : jsstring → option jsstring.
Variable localeCompare : jsstring → jsstring → Z.
Variable toLowerCase : jsstring → jsstring.
Variable rows : list Row.
Variable reuseCounts : gmap jsstring nat.
Variable weakAdjusted : gmap jsstring (list jsstring).

Local Abbreviation candidate :=
  (candidateRow urlHostname rows reuseCounts weakAdjusted).

(** One turn of the loop pushes the candidate row or leaves the list
    as it is. *)
Lemma resultStep_candidate (issueMode : IssueMode) (query : jsstring)
    (results : list ResultRow) (e : Entry) :
  resultStep urlHostname toLowerCase rows reuseCounts weakAdjusted issueMode
             query results e
  = if issueKeeps issueMode (candidate e)
       && searchKeeps toLowerCase query (candidate e)
    then results ++ [candidate e] else results.
Proof.
  unfold resultStep, searchKeeps, candidate, candidateRow, entryKey, push.
  cbn [reuseCount isWeak domain rr_site rr_username url].
  set (rc := default 0 (reuseCounts !! keyOf (site e) (username e))).
  set (wr := default [] (weakAdjusted !! keyOf (site e) (username e))).
  assert (Hurl : match rowBySite rows (site e) with
                 | Some r => if truthy (row_url r) then Some (row_url r)
                             else None
                 | None => None
                 end
                 = (r ← rowBySite rows (site e);
                    if truthy (row_url r) then Some (row_url r) else None))
    by (by destruct (rowBySite rows (site e))).
  rewrite Hurl, Nat.ltb_antisym.
  destruct issueMode; cbn [issueKeeps reuseCount isWeak].
  all: destruct (includes _ _), (truthy (toLowerCase (trim query))),
         (2 <=? rc), (0 <? length wr); reflexivity.
Qed.

Lemma resultLoop_filter (issueMode : IssueMode) (query : jsstring)
    (entries : list Entry) (results : list ResultRow) :
  foldl (resultStep urlHostname toLowerCase rows reuseCounts weakAdjusted
                    issueMode query) results entries
  = results
    ++ filter (λ r, issueKeeps issueMode r = true
                    ∧ searchKeeps toLowerCase query r = true)
              (candidate <$> entries).
Proof.
  revert results. induction entries as [|e entries IH]; intros results.
  - simpl. by rewrite app_nil_r.
  - cbn [foldl]. rewrite IH, resultStep_candidate, fmap_cons, filter_cons.
    destruct (issueKeeps issueMode (candidate e)),
      (searchKeeps toLowerCase query (candidate e)); simpl;
      rewrite <- ?app_assoc; done.
Qed.

Lemma resultCompare_risk_pos (a b : ResultRow) :
  (0 < resultCompare localeCompare SortRisk a b)%Z ↔ rowScore a < rowScore b.
Proof. unfold resultCompare, rowScore. lia. Qed.

(** The lower-cased empty string is the empty string, which is not
    truthy. *)
Lemma searchKeeps_empty (query : jsstring) (r : ResultRow) :
  toLowerCase [] = [] → trim query = [] →
  searchKeeps toLowerCase query r = true.
Proof. unfold searchKeeps. by intros Hnil ->; rewrite Hnil. Qed.

End Projection.

Section SortedUnique.
Context {A : Type} (sortKey : A → nat).

(** A list sorted largest first is the list of its elements in
    strictly descending order, when there is one. *)
Lemma sorted_perm_unique (l0 s : list A) :
  StronglySorted (λ a b, sortKey b < sortKey a) l0 →
  StronglySorted (λ a b, sortKey b ≤ sortKey a) s →
  s ≡ₚ l0 → s = l0.
Proof.
  revert s. induction l0 as [|x l0 IH]; intros s H0 Hs Hp.
  - by apply Permutation_nil_r in Hp.
  - destruct s as [|y s]; [by apply Permutation_nil_cons in Hp|].
    apply StronglySorted_inv in H0 as [H0 Hx].
    apply StronglySorted_inv in Hs as [Hs Hy].
    rewrite Forall_forall in Hx, Hy.
    assert (y = x) as ->.
    { assert (Hyin : y ∈ x :: l0) by (rewrite <- Hp; left).
      assert (Hxin : x ∈ y :: s) by (rewrite Hp; left).
      apply elem_of_cons in Hyin as [->|Hyin]; [done|].
      apply elem_of_cons in Hxin as [->|Hxin]; [done|].
      apply Hx in Hyin. apply Hy in Hxin. lia. }
    f_equal. apply IH; [done|done|]. by apply Permutation_cons_inv in Hp.
Qed.
End SortedUnique.

(** C6, as the code has it. The displayed sequence is the sorted list of
    exactly the candidate rows that pass the issue-mode predicate and the
    search predicate: the trimmed query, lower-cased by the platform's
    [toLowerCase], is empty or occurs in the lower-cased text of the row.
    This holds for every function in the place of [toLowerCase]; where
    that function maps the empty string to the empty string, every row
    passes the search predicate when the trimmed query is empty.  Under
    the risk sort the sequence is in descending order of the risk score
    computed from the reuse count and weakness flag each row has, rows of
    one score in entry order.  Rows with (5, not weak), (0, weak),
    (1, not weak) are put in this order. *)
Theorem allResults_filter_sort
    (urlHostname : jsstring → option jsstring)
    (localeCompare : jsstring → jsstring → Z)
    (toLowerCase : jsstring → jsstring)
    (entries : list Entry) (rows : list Row) (minLength : Z)
    (issueMode : IssueMode) (sortMode : SortMode) (query : jsstring) :
  let report := analyze entries in
  let candidates :=
    candidateRow urlHostname rows (reuseCountByKey report)
      (weakAdjustedByKey report (passwordByKey entries) minLength)
    <$> entries in
  let kept :=
    filter (λ r, issueKeeps issueMode r = true
                 ∧ searchKeeps toLowerCase query r = true)
           candidates in
  let shown :=
    allResults urlHostname localeCompare toLowerCase entries rows
               minLength issueMode sortMode query in
  shown = arraySort (resultCompare localeCompare sortMode) kept
  ∧ shown ≡ₚ kept
  ∧ (toLowerCase [] = [] → trim query = [] →
     kept = filter (λ r, issueKeeps issueMode r = true) candidates)
  ∧ (sortMode = SortRisk →
     StronglySorted (λ a b, rowScore b ≤ rowScore a) shown
     ∧ ∀ c, filter (λ r, rowScore r = c) shown
            = filter (λ r, rowScore r = c) kept)
  ∧ (∀ r1 r2 r3 l,
        reuseCount r1 = 5 → isWeak r1 = false →
        reuseCount r2 = 0 → isWeak r2 = true →
        reuseCount r3 = 1 → isWeak r3 = false →
        l ≡ₚ [r1; r2; r3] →
        arraySort (resultCompare localeCompare SortRisk) l = [r1; r2; r3]).
Proof.
  intros report candidates kept shown.
  assert (Hshown : shown
                   = arraySort (resultCompare localeCompare sortMode) kept).
  { unfold shown, allResults. fold report.
    by rewrite resultLoop_filter. }
  split; [exact Hshown|].
  split; [rewrite Hshown; apply arraySort_perm|].
  split.
  { intros Hnil Hq. unfold kept. apply list_filter_iff. intros r.
    rewrite (searchKeeps_empty toLowerCase query r Hnil Hq). tauto. }
  split.
  { intros ->. rewrite Hshown. split.
    - apply (arraySort_sorted rowScore), resultCompare_risk_pos.
    - intros c.
      apply (arraySort_stable rowScore), resultCompare_risk_pos. }
  intros r1 r2 r3 l Hc1 Hw1 Hc2 Hw2 Hc3 Hw3 Hl.
  apply (sorted_perm_unique rowScore).
  - repeat constructor; unfold rowScore, riskScore;
      rewrite ?Hc1, ?Hw1, ?Hc2, ?Hw2, ?Hc3, ?Hw3; lia.
  - apply (arraySort_sorted rowScore), resultCompare_risk_pos.
  - by rewrite arraySort_perm.
Qed.

(** The three rows of the sort scenario, given in another order; the
    result list of three entries with an empty query; and the same
    entries searched for [" ALPHA "].  The sample text is ASCII, on which
    the platform's [toLowerCase] is [toLowerCaseAscii]. *)
Lemma allResults_filter_sort_witness :
  arraySort (resultCompare flatCompare SortRisk)
            [rowReused1; rowReused5; rowWeak0]
  = [rowReused5; rowWeak0; rowReused1]
  ∧ StronglySorted (λ a b, rowScore b ≤ rowScore a)
      (allResults noHostname flatCompare toLowerCaseAscii
                  [entryAlpha; entryGamma; entryBeta] [] 12 IssueAll SortRisk
                  [])
  ∧ filter (λ r, issueKeeps IssueAll r = true
                 ∧ searchKeeps toLowerCaseAscii [] r = true)
      (candidateRow noHostname []
         (reuseCountByKey (analyze [entryAlpha; entryGamma; entryBeta]))
         (weakAdjustedByKey (analyze [entryAlpha; entryGamma; entryBeta])
            (passwordByKey [entryAlpha; entryGamma; entryBeta]) 12)
       <$> [entryAlpha; entryGamma; entryBeta])
    = filter (λ r, issueKeeps IssueAll r = true)
        (candidateRow noHostname []
           (reuseCountByKey (analyze [entryAlpha; entryGamma; entryBeta]))
           (weakAdjustedByKey (analyze [entryAlpha; entryGamma; entryBeta])
              (passwordByKey [entryAlpha; entryGamma; entryBeta]) 12)
         <$> [entryAlpha; entryGamma; entryBeta])
  ∧ allResults noHostname flatCompare toLowerCaseAscii
               [entryAlpha; entryGamma; entryBeta] [] 12 IssueAll SortRisk
               (lit " ALPHA ")
    ≡ₚ filter (λ r, issueKeeps IssueAll r = true
                    ∧ searchKeeps toLowerCaseAscii (lit " ALPHA ") r = true)
         (candidateRow noHostname []
            (reuseCountByKey (analyze [entryAlpha; entryGamma; entryBeta]))
            (weakAdjustedByKey (analyze [entryAlpha; entryGamma; entryBeta])
               (passwordByKey [entryAlpha; entryGamma; entryBeta]) 12)
          <$> [entryAlpha; entryGamma; entryBeta])
  ∧ key <$> allResults noHostname flatCompare toLowerCaseAscii
                       [entryAlpha; entryGamma; entryBeta] [] 12 IssueAll
                       SortRisk (lit " ALPHA ")
    = [entryKey entryAlpha].
Proof.
  destruct (allResults_filter_sort noHostname flatCompare toLowerCaseAscii
              [entryAlpha; entryGamma; entryBeta] [] 12 IssueAll SortRisk [])
    as (_ & _ & Hquery & Hrisk & Hscenario).
  destruct (allResults_filter_sort noHostname flatCompare toLowerCaseAscii
              [entryAlpha; entryGamma; entryBeta] [] 12 IssueAll SortRisk
              (lit " ALPHA "))
    as (_ & Hperm & _).
  split; [|split; [|split; [|split]]].
  - apply Hscenario; try reflexivity.
    apply (Permutation_cons_append [rowReused5; rowWeak0] rowReused1).
  - apply Hrisk. reflexivity.
  - apply Hquery; reflexivity.
  - exact Hperm.
  - reflexivity.
Defined.

(** C6, as the claim words it, fails: with the query ["zzz"] the entry
    [entryAlpha] passes the issue-mode predicate of [IssueAll] and is not
    displayed.  Query and entry are written in lower-case ASCII letters,
    which the platform's [toLowerCase] leaves as they are. *)
Lemma allResults_search_counterexample :
  ¬ (allResults noHostname flatCompare toLowerCaseAscii [entryAlpha] [] 12
                IssueAll SortRisk (lit "zzz")
     ≡ₚ filter (λ r, issueKeeps IssueAll r = true)
          (candidateRow noHostname []
             (reuseCountByKey (analyze [entryAlpha]))
             (weakAdjustedByKey (analyze [entryAlpha])
                (passwordByKey [entryAlpha]) 12)
           <$> [entryAlpha])).
Proof.
  intros H. vm_compute in H. by apply Permutation_nil_cons in H.
Qed.

Section AdjustReasons.

Lemma strip_fold (t : jsstring → bool) (l acc : list jsstring) :
  foldl (λ out r, if t r then out else push out r) acc l
  = acc ++ filter (λ r, t r = false) l.
Proof.
  revert acc. induction l as [|r l IH]; intros acc; simpl.
  - by rewrite app_nil_r.
  - rewrite IH, filter_cons. unfold push.
    destruct (t r); simpl; [done|]. by rewrite <- app_assoc.
Qed.

(** On the six labels of the core the prefix test of the source singles
    out the label of the length rule. *)
Lemma startsWith_length_label (r : Rule) :
  startsWith (lit "length") (toLowerCaseAscii (ruleLabel r)) = false
  ↔ ruleLabel r ≠ ruleLabel RuleLength.
Proof. destruct r; vm_compute; split; congruence. Qed.

Lemma strip_labels (vs : list Rule) :
  filter (λ r, startsWith (lit "length") (toLowerCaseAscii r) = false)
         (ruleLabel <$> vs)
  = filter (λ r, r ≠ ruleLabel RuleLength) (ruleLabel <$> vs).
Proof.
  induction vs as [|v vs IH]; [done|].
  rewrite fmap_cons, !filter_cons, IH.
  pose proof (startsWith_length_label v) as Hv.
  destruct (decide (startsWith (lit "length") (toLowerCaseAscii (ruleLabel v))
                    = false)),
    (decide (ruleLabel v ≠ ruleLabel RuleLength)); tauto.
Qed.

Lemma truthy_length (s : jsstring) : truthy s = (0 <? length s).
Proof. by destruct s. Qed.

(** [adjustWeakReasons] on the baseline reasons of a password and that
    password. *)
Lemma adjustWeakReasons_baseline (pw : jsstring) (minLength : Z) :
  adjustWeakReasons (weakCheckReasons pw) (Some pw) minLength
  = adjustedReasons pw minLength.
Proof.
  unfold adjustWeakReasons, adjustedReasons, otherReasons, lengthReason.
  rewrite strip_fold, app_nil_l. cbn [from_option].
  rewrite weakCheckReasons_filter, strip_labels, truthy_length, andb_diag.
  destruct (decide (0 < length pw ∧ (Z.of_nat (length pw) < minLength)%Z))
    as [[Hpos Hlt]|Hno].
  - apply Nat.ltb_lt in Hpos as ->. apply Z.ltb_lt in Hlt as ->. done.
  - destruct (0 <? length pw) eqn:Hpos; [|done].
    destruct (Z.of_nat (length pw) <? minLength)%Z eqn:Hlt; [|done].
    apply Nat.ltb_lt in Hpos. apply Z.ltb_lt in Hlt. tauto.
Qed.

Lemma adjustedReasons_below (pw : jsstring) (minLength : Z) :
  0 < length pw → (Z.of_nat (length pw) < minLength)%Z →
  adjustedReasons pw minLength = lengthReason minLength :: otherReasons pw.
Proof.
  intros Hpos Hlt. unfold adjustedReasons.
  rewrite decide_True by done. done.
Qed.

End AdjustReasons.

Section AdjustedLookup.

Lemma weakAdjusted_fold_other (pbk : gmap jsstring jsstring) (minLength : Z)
    (ws : list WeakFinding) (acc : gmap jsstring (list jsstring))
    (k : jsstring) :
  (∀ w, w ∈ ws → findingKey w ≠ k) →
  foldl (weakAdjustedStep pbk minLength) acc ws !! k = acc !! k.
Proof.
  revert acc. induction ws as [|w ws IH]; intros acc Hother; [done|].
  cbn [foldl]. rewrite IH by (intros w' Hw'; apply Hother; by right).
  unfold weakAdjustedStep. destruct (0 <? length _); [|done].
  apply lookup_insert_ne. apply Hother. left.
Qed.

Lemma weakAdjustedStep_same (pbk : gmap jsstring jsstring) (minLength : Z)
    (acc : gmap jsstring (list jsstring)) (w : WeakFinding) :
  weakAdjustedStep pbk minLength acc w !! findingKey w
  = let adjusted :=
      adjustWeakReasons (reasons w) (pbk !! findingKey w) minLength in
    if decide (adjusted = []) then acc !! findingKey w else Some adjusted.
Proof.
  unfold weakAdjustedStep. fold (findingKey w). cbn zeta.
  destruct (adjustWeakReasons _ _ _) as [|r rs]; simpl; [done|].
  apply lookup_insert_eq.
Qed.

(** The lookup under a key that one finding has. *)
Lemma weakAdjusted_fold_single (pbk : gmap jsstring jsstring)
    (minLength : Z) (ws1 ws2 : list WeakFinding) (w : WeakFinding) :
  (∀ w', w' ∈ ws1 → findingKey w' ≠ findingKey w) →
  (∀ w', w' ∈ ws2 → findingKey w' ≠ findingKey w) →
  foldl (weakAdjustedStep pbk minLength) ∅ (ws1 ++ w :: ws2) !! findingKey w
  = let adjusted :=
      adjustWeakReasons (reasons w) (pbk !! findingKey w) minLength in
    if decide (adjusted = []) then None else Some adjusted.
Proof.
  intros H1 H2. rewrite foldl_app. cbn [foldl].
  rewrite weakAdjusted_fold_other by done.
  rewrite weakAdjustedStep_same. cbn zeta.
  destruct (decide (adjustWeakReasons _ _ _ = [])); [|done].
  rewrite weakAdjusted_fold_other by done. apply lookup_empty.
Qed.

Lemma uniqueKey_passwordByKey (entries : list Entry) (i : nat) (e : Entry) :
  entries !! i = Some e → uniqueKey entries i e →
  passwordByKey entries !! entryKey e = Some (password e).
Proof.
  intros He Huniq. rewrite <- (take_drop_middle entries i e He).
  apply passwordByKey_last. intros e' He'.
  apply list_elem_of_lookup in He' as (j & Hj).
  rewrite lookup_drop in Hj. apply (Huniq _ _ Hj). lia.
Qed.

(** A finding other than the one of position [i] has another key. *)
Lemma uniqueKey_findingKey (entries : list Entry) (i : nat) (e : Entry)
    (w : WeakFinding) :
  entries !! i = Some e → uniqueKey entries i e →
  w ∈ analyzeWeakFindings entries → index w ≠ i →
  findingKey w ≠ entryKey e.
Proof.
  intros He Huniq Hw Hidx.
  apply elem_of_analyzeWeakFindings in Hw as (e' & He' & Hw).
  apply weakCheck_Some in Hw as (_ & Hs & Hu & _).
  unfold findingKey. rewrite Hs, Hu. by apply (Huniq _ _ He').
Qed.

Lemma weakAdjusted_unique_weak (entries : list Entry) (i : nat) (e : Entry)
    (minLength : Z) :
  entries !! i = Some e → uniqueKey entries i e →
  weakCheckReasons (password e) ≠ [] →
  weakAdjustedByKey (analyze entries) (passwordByKey entries) minLength
    !! entryKey e
  = if decide (adjustedReasons (password e) minLength = []) then None
    else Some (adjustedReasons (password e) minLength).
Proof.
  intros He Huniq Hweak.
  pose proof (weakFinding_at entries i e He Hweak) as Hin.
  set (w := mkWeakFinding i (site e) (username e)
                          (weakCheckReasons (password e))) in *.
  pose proof (analyzeWeakFindings_NoDup_index entries) as Hnd.
  apply list_elem_of_split in Hin as (ws1 & ws2 & Hsplit).
  rewrite Hsplit, fmap_app, fmap_cons in Hnd.
  apply NoDup_app in Hnd as (_ & Hnd1 & Hnd2).
  apply NoDup_cons in Hnd2 as [Hnd2 _].
  assert (H1 : ∀ w', w' ∈ ws1 → findingKey w' ≠ findingKey w).
  { intros w' Hw'. apply (uniqueKey_findingKey entries i e); [done|done| |].
    - rewrite Hsplit. apply elem_of_app. by left.
    - intros Hidx. apply (Hnd1 (index w')).
      + apply list_elem_of_fmap. eauto.
      + rewrite Hidx. left. }
  assert (H2 : ∀ w', w' ∈ ws2 → findingKey w' ≠ findingKey w).
  { intros w' Hw'. apply (uniqueKey_findingKey entries i e); [done|done| |].
    - rewrite Hsplit. apply elem_of_app. right. by right.
    - intros Hidx. apply Hnd2. apply list_elem_of_fmap.
      exists w'. split; [symmetry; exact Hidx|done]. }
  unfold weakAdjustedByKey.
  change (weakFindings (analyze entries)) with (analyzeWeakFindings entries).
  rewrite Hsplit.
  change (entryKey e) with (findingKey w).
  rewrite weakAdjusted_fold_single by done. cbn zeta.
  change (findingKey w) with (entryKey e).
  rewrite (uniqueKey_passwordByKey entries i e He Huniq).
  change (reasons w) with (weakCheckReasons (password e)).
  by rewrite adjustWeakReasons_baseline.
Qed.

(** What the loop over the weak findings does with an entry that has no
    baseline finding: its key is not in the lookup, whatever the live
    threshold. *)
Lemma weakAdjusted_unique_strong (entries : list Entry) (i : nat) (e : Entry)
    (minLength : Z) :
  entries !! i = Some e → uniqueKey entries i e →
  weakCheckReasons (password e) = [] →
  weakAdjustedByKey (analyze entries) (passwordByKey entries) minLength
    !! entryKey e = None.
Proof.
  intros He Huniq Hstrong. unfold weakAdjustedByKey.
  change (weakFindings (analyze entries)) with (analyzeWeakFindings entries).
  rewrite weakAdjusted_fold_other; [apply lookup_empty|].
  intros w Hw. apply (uniqueKey_findingKey entries i e); [done|done|done|].
  by apply (no_weakFinding_at entries i e).
Qed.

End AdjustedLookup.

(** C2: the code at an entry that the length rule of the live policy
    flags and the baseline does not.  The password of [entryGamma] has
    fourteen code units and violates no rule of the core, so the report
    has no finding for it.  With the threshold at 16 (and at any
    threshold of the input's range above 14) [adjustWeakReasons], given
    the entry's baseline reasons and password, returns the length reason
    of the live threshold.  The loop of [weakAdjustedByKey] visits the
    findings of the report only: the key of the entry is in the lookup
    at no threshold, its row is not weak and the weak-only list is
    empty.  For [entryShort], which has a baseline finding, the lookup
    at 16 does hold the length reason. *)
Theorem weakAdjustedByKey_length_rule_missed :
  length (password entryGamma) = 14
  ∧ weakCheckReasons (password entryGamma) = []
  ∧ weakFindings (analyze [entryGamma]) = []
  ∧ passwordByKey [entryGamma] !! entryKey entryGamma
    = Some (password entryGamma)
  ∧ adjustWeakReasons (weakCheckReasons (password entryGamma))
                      (passwordByKey [entryGamma] !! entryKey entryGamma) 16
    = [lit "Length < 16"]
  ∧ (∀ m, (14 < m ≤ 64)%Z →
          adjustWeakReasons (weakCheckReasons (password entryGamma))
                            (passwordByKey [entryGamma] !! entryKey entryGamma)
                            m
          = [lengthReason m])
  ∧ (∀ m, weakAdjustedByKey (analyze [entryGamma])
                            (passwordByKey [entryGamma]) m
            !! entryKey entryGamma = None)
  ∧ isWeak <$> allResults noHostname flatCompare toLowerCaseAscii
                          [entryGamma] [] 16 IssueAll SortRisk []
    = [false]
  ∧ allResults noHostname flatCompare toLowerCaseAscii [entryGamma] [] 16
               IssueWeak SortRisk []
    = []
  ∧ weakAdjustedByKey (analyze [entryShort]) (passwordByKey [entryShort]) 16
      !! entryKey entryShort
    = Some [lit "Length < 16"].
Proof.
  split; [reflexivity|]. split; [reflexivity|]. split; [reflexivity|].
  split; [reflexivity|]. split; [reflexivity|].
  split; [|split; [|repeat split; reflexivity]].
  - intros m Hm.
    change (passwordByKey [entryGamma] !! entryKey entryGamma)
      with (Some (password entryGamma)).
    rewrite adjustWeakReasons_baseline, adjustedReasons_below.
    + reflexivity.
    + vm_compute. lia.
    + change (14 < m)%Z. lia.
  - intros m.
    assert (Huniq : uniqueKey [entryGamma] 0 entryGamma).
    { intros [|j] e' He' Hj; done. }
    by apply (weakAdjusted_unique_strong [entryGamma] 0 entryGamma m).
Qed.

(** C7: the code at values outside the range 6..64 that the input
    declares.  The handler stores 3; with it the five-unit password of
    [entryTiny] gets no length reason and its key is missing from the
    lookup, whereas every threshold of the range, the default 12 among
    them, gives it the length reason.  The handler stores 100 as well,
    and the twelve-unit password of [entryAlpha] is then compared with
    100.  Only the empty value is replaced by 12. *)
Theorem minLength_out_of_range :
  minLengthOnChange (ValueNumber 3) = 3%Z
  ∧ minLengthOnChange ValueEmpty = 12%Z
  ∧ adjustWeakReasons (weakCheckReasons (password entryTiny))
                      (Some (password entryTiny))
                      (minLengthOnChange (ValueNumber 3)) = []
  ∧ weakAdjustedByKey (analyze [entryTiny]) (passwordByKey [entryTiny])
                      (minLengthOnChange (ValueNumber 3))
      !! entryKey entryTiny = None
  ∧ (∀ m, (6 ≤ m ≤ 64)%Z →
          weakAdjustedByKey (analyze [entryTiny]) (passwordByKey [entryTiny]) m
            !! entryKey entryTiny = Some [lengthReason m])
  ∧ minLengthOnChange (ValueNumber 100) = 100%Z
  ∧ weakAdjustedByKey (analyze [entryAlpha]) (passwordByKey [entryAlpha])
                      (minLengthOnChange (ValueNumber 100))
      !! entryKey entryAlpha
    = Some [lit "Length < 100"; lit "No uppercase"; lit "No number";
            lit "No symbol"].
Proof.
  split; [reflexivity|]. split; [reflexivity|].
  split; [reflexivity|]. split; [reflexivity|].
  split; [|split; reflexivity].
  intros m Hm.
  assert (Huniq : uniqueKey [entryTiny] 0 entryTiny).
  { intros [|j] e' He' Hj; done. }
  rewrite (weakAdjusted_unique_weak [entryTiny] 0 entryTiny m eq_refl Huniq)
    by (vm_compute; discriminate).
  rewrite adjustedReasons_below.
  - reflexivity.
  - vm_compute. lia.
  - change (5 < m)%Z. lia.
Qed.

(** ** Further properties of the core *)

Section Counting.

Lemma length_accountsWith (entries : list Entry) (p : jsstring) :
  length (accountsWith entries p) = occurrences entries p.
Proof. unfold accountsWith, occurrences. apply length_fmap. Qed.

Lemma elem_of_reusedPasswords (entries : list Entry) (p : jsstring) :
  p ∈ reusedPasswords entries ↔ 2 ≤ occurrences entries p.
Proof.
  unfold reusedPasswords.
  rewrite list_elem_of_filter, elem_of_firstSeen, length_accountsWith.
  split; [tauto|]. intros Hocc. split; [done|]. unfold occurrences in Hocc.
  destruct (filter (λ e, password e = p) entries) as [|e l] eqn:Hf;
    [simpl in Hocc; lia|].
  assert (He : e ∈ filter (λ e, password e = p) entries)
    by (rewrite Hf; left).
  apply list_elem_of_filter in He as [<- He].
  apply list_elem_of_fmap. eauto.
Qed.

Lemma length_filter_disjoint {A} (P Q : A → Prop)
    `{∀ x, Decision (P x)} `{∀ x, Decision (Q x)} (l : list A) :
  (∀ x, P x → Q x → False) →
  length (filter (λ x, P x ∨ Q x) l)
  = length (filter P l) + length (filter Q l).
Proof.
  intros Hdisj. induction l as [|x l IH]; [done|].
  rewrite !filter_cons.
  destruct (decide (P x)) as [HP|HP], (decide (Q x)) as [HQ|HQ].
  - destruct (Hdisj x HP HQ).
  - rewrite decide_True by tauto. simpl. lia.
  - rewrite decide_True by tauto. simpl. lia.
  - rewrite decide_False by tauto. done.
Qed.

(** Distinct passwords have disjoint sets of entries. *)
Lemma sum_occurrences (entries : list Entry) (ps : list jsstring) :
  NoDup ps →
  sum_list (occurrences entries <$> ps)
  = length (filter (λ e, password e ∈ ps) entries).
Proof.
  induction 1 as [|p ps Hnin Hnd IH]; csimpl.
  - induction entries as [|e entries IHe]; [done|].
    rewrite filter_cons, decide_False by apply not_elem_of_nil. done.
  - rewrite IH. unfold occurrences.
    rewrite <- (length_filter_disjoint (λ e, password e = p)
                  (λ e, password e ∈ ps))
      by (intros e -> Hin; done).
    f_equal. apply list_filter_iff. intros e. rewrite elem_of_cons. done.
Qed.

Lemma analyzeReuseGroups_perm (entries : list Entry) :
  analyzeReuseGroups entries ≡ₚ groupFor entries <$> reusedPasswords entries.
Proof.
  unfold analyzeReuseGroups. rewrite collectGroups_analyzeMap.
  apply arraySort_perm.
Qed.

Lemma elem_of_analyzeReuseGroups (entries : list Entry) (g : ReuseGroup) :
  g ∈ analyzeReuseGroups entries ↔
  ∃ p, 2 ≤ occurrences entries p ∧ g = groupFor entries p.
Proof.
  rewrite analyzeReuseGroups_perm, list_elem_of_fmap.
  split; intros (p & H1 & H2); exists p;
    [apply elem_of_reusedPasswords in H2|apply elem_of_reusedPasswords in H1];
    done.
Qed.

Lemma sum_count_analyze (entries : list Entry) :
  sum_list (count <$> analyzeReuseGroups entries)
  = length (filter (λ e, 2 ≤ occurrences entries (password e)) entries).
Proof.
  rewrite analyzeReuseGroups_perm, <- list_fmap_compose.
  rewrite (list_fmap_ext _ (occurrences entries))
    by (intros i p _; apply length_accountsWith).
  rewrite sum_occurrences by apply NoDup_filter, NoDup_firstSeen.
  f_equal. apply list_filter_iff. intros e. apply elem_of_reusedPasswords.
Qed.

Lemma weakCount_from (n : nat) (l : list Entry) :
  length (omap id (imap (λ i, weakCheck (n + i)) l))
  = length (filter (λ e, weakCheckReasons (password e) ≠ []) l).
Proof.
  revert n. induction l as [|e l IH]; intros n; [done|].
  rewrite imap_cons.
  rewrite (imap_ext _ (λ i, weakCheck (S n + i)) l)
    by (intros i x _; simpl; f_equal; lia).
  rewrite filter_cons. simpl.
  destruct (weakCheck (n + 0) e) as [w|] eqn:Hw; simpl.
  - apply weakCheck_Some in Hw as (_ & _ & _ & _ & Hne).
    rewrite decide_True by done. simpl. f_equal. apply (IH (S n)).
  - apply weakCheck_None in Hw. rewrite decide_False by tauto.
    apply (IH (S n)).
Qed.

Lemma length_analyzeWeakFindings (entries : list Entry) :
  length (analyzeWeakFindings entries)
  = length (filter (λ e, weakCheckReasons (password e) ≠ []) entries).
Proof. apply (weakCount_from 0). Qed.

Lemma reusedAccounts_analyze (entries : list Entry) :
  reusedAccounts (summary (analyze entries))
  = sum_list (count <$> analyzeReuseGroups entries).
Proof. apply (foldl_add_count _ 0). Qed.

End Counting.

(** X1. The counts of the summary bound each other: no more weak
    findings than entries, at least two accounts for every reuse group,
    and [reusedAccounts] is the number of entries whose password occurs
    in two entries or more, hence at most the number of entries. *)
Theorem analyze_summary_bounds (entries : list Entry) :
  let s := summary (analyze entries) in
  weak s ≤ total s
  ∧ 2 * reusedGroups s ≤ reusedAccounts s
  ∧ reusedAccounts s
    = length (filter (λ e, 2 ≤ occurrences entries (password e)) entries)
  ∧ reusedAccounts s ≤ total s.
Proof.
  intros s. subst s. rewrite reusedAccounts_analyze.
  change (weak (summary (analyze entries)))
    with (length (analyzeWeakFindings entries)).
  change (total (summary (analyze entries))) with (length entries).
  change (reusedGroups (summary (analyze entries)))
    with (length (analyzeReuseGroups entries)).
  split; [|split; [|split]].
  - rewrite length_analyzeWeakFindings. apply length_filter.
  - assert (Hall : Forall (λ g, 2 ≤ count g) (analyzeReuseGroups entries)).
    { apply Forall_forall. intros g Hg.
      apply elem_of_analyzeReuseGroups in Hg as (p & Hp & ->). simpl.
      by rewrite length_accountsWith. }
    induction Hall as [|g gs Hg Hall IH]; csimpl; lia.
  - apply sum_count_analyze.
  - rewrite sum_count_analyze. apply length_filter.
Qed.

(** X2. The number of weak findings is the number of entries whose
    password has a reason, that is, violates at least one rule. *)
Theorem analyze_weak_count (entries : list Entry) :
  weak (summary (analyze entries))
  = length (filter (λ e, weakCheckReasons (password e) ≠ []) entries)
  ∧ ∀ pw, weakCheckReasons pw ≠ [] ↔ ∃ r, violates pw r.
Proof.
  split; [apply length_analyzeWeakFindings|].
  intros pw. split.
  - intros Hne. destruct (weakCheckReasons_violated pw) as (vs & Hvs & _ & Hin).
    destruct vs as [|r vs]; [by rewrite Hvs in Hne|].
    exists r. apply Hin. left.
  - intros (r & Hr) Hnil. by apply (weakCheckReasons_nil_iff pw) in Hr.
Qed.

Section Extension.

Lemma ruleLabel_inj (r1 r2 : Rule) : ruleLabel r1 = ruleLabel r2 → r1 = r2.
Proof. destruct r1, r2; vm_compute; congruence. Qed.

Lemma elem_of_weakCheckReasons (pw : jsstring) (r : Rule) :
  ruleLabel r ∈ weakCheckReasons pw ↔ ruleFlagged pw r = true.
Proof.
  rewrite weakCheckReasons_filter, list_elem_of_fmap. split.
  - intros (r' & Heq & Hr'). apply ruleLabel_inj in Heq as <-.
    by apply list_elem_of_filter in Hr' as [? _].
  - intros Hr. exists r. split; [done|].
    apply list_elem_of_filter. split; [done|apply elem_of_ruleOrder].
Qed.

Lemma existsb_app_false {A} (f : A → bool) (l1 l2 l3 : list A) :
  existsb f (l1 ++ l2 ++ l3) = false → existsb f l2 = false.
Proof.
  rewrite !existsb_app, !orb_false_iff. tauto.
Qed.

End Extension.

(** X3. Characters added in front of or behind a password never add a
    length or character-class reason: every reason of the longer
    password other than the common-pattern one is a reason of the
    shorter; the common-pattern reason of the shorter password stays. *)
Theorem weakCheckReasons_extend (pre pw post : jsstring) :
  (∀ r, r ∈ weakCheckReasons (pre ++ pw ++ post) →
        r ≠ lit "Common pattern" → r ∈ weakCheckReasons pw)
  ∧ (lit "Common pattern" ∈ weakCheckReasons pw →
     lit "Common pattern" ∈ weakCheckReasons (pre ++ pw ++ post)).
Proof.
  split.
  - intros r Hr Hne.
    rewrite weakCheckReasons_filter in Hr.
    apply list_elem_of_fmap in Hr as (R & -> & HR).
    apply list_elem_of_filter in HR as [HR _].
    apply elem_of_weakCheckReasons.
    destruct R; simpl in *.
    + apply Nat.ltb_lt in HR. apply Nat.ltb_lt.
      rewrite !length_app in HR. lia.
    + apply negb_true_iff in HR. apply negb_true_iff.
      by apply existsb_app_false in HR.
    + apply negb_true_iff in HR. apply negb_true_iff.
      by apply existsb_app_false in HR.
    + apply negb_true_iff in HR. apply negb_true_iff.
      by apply existsb_app_false in HR.
    + apply negb_true_iff in HR. apply negb_true_iff.
      by apply existsb_app_false in HR.
    + done.
  - change (lit "Common pattern") with (ruleLabel RuleCommonPattern).
    rewrite !elem_of_weakCheckReasons, !ruleFlagged_violates. simpl.
    unfold isSubstring, toLowerCaseAscii. rewrite !fmap_app.
    intros [H|[H|H]]; [left|right; left|right; right];
      destruct H as (a & b & ->);
      exists ((lowerUnit <$> pre) ++ a), (b ++ (lowerUnit <$> post));
      by rewrite <- !app_assoc.
Qed.

(** A password that lacks a digit and a symbol, with a digit and a
    symbol put behind it. *)
Lemma weakCheckReasons_extend_witness :
  (∀ r, r ∈ weakCheckReasons ([] ++ lit "Password" ++ lit "9!") →
        r ≠ lit "Common pattern" → r ∈ weakCheckReasons (lit "Password"))
  ∧ lit "Common pattern" ∈ weakCheckReasons ([] ++ lit "Password" ++ lit "9!").
Proof.
  destruct (weakCheckReasons_extend [] (lit "Password") (lit "9!"))
    as [Hless Hcommon].
  split; [exact Hless|].
  apply Hcommon. vm_compute. do 3 right. left.
Defined.

(** X4. More reuse or weakness never lowers the risk: the score and the
    rank of the label are monotone in the reuse count and in the
    weakness flag. *)
Theorem risk_monotone (reuseCount reuseCount' : nat) (isWeak isWeak' : bool) :
  reuseCount ≤ reuseCount' →
  (isWeak = true → isWeak' = true) →
  riskScore reuseCount isWeak ≤ riskScore reuseCount' isWeak'
  ∧ riskRank (riskLabel reuseCount isWeak)
    ≤ riskRank (riskLabel reuseCount' isWeak').
Proof.
  intros Hle Hweak. unfold riskScore, riskLabel.
  destruct isWeak, isWeak'; try (specialize (Hweak eq_refl); discriminate).
  all: destruct (Nat.leb_spec 10 reuseCount), (Nat.leb_spec 10 reuseCount'),
         (Nat.leb_spec 2 reuseCount), (Nat.leb_spec 2 reuseCount');
         simpl; lia.
Qed.

Lemma risk_monotone_witness :
  riskScore 2 false ≤ riskScore 10 true
  ∧ riskRank (riskLabel 2 false) ≤ riskRank (riskLabel 10 true).
Proof. apply (risk_monotone 2 10 false true); [lia|done]. Defined.

(** ** The reuse-count lookup *)

Section ReuseCount.

Lemma keyOf_separator (site username : jsstring) :
  keyOf site username = lit "||" ↔ site = [] ∧ username = [].
Proof.
  split; [|by intros [-> ->]].
  intros Heq. apply (f_equal length) in Heq.
  unfold keyOf in Heq. rewrite !length_app in Heq.
  change (length (lit "||")) with 2 in Heq.
  destruct site, username; simpl in Heq; try lia. done.
Qed.

Lemma reuseCountByKey_fold (report : Report) :
  reuseCountByKey report = reuseCountFold ∅ (reuseGroups report).
Proof. reflexivity. Qed.

Lemma reuseCountInner_lookup (cnt : nat) (m : gmap jsstring nat)
    (accounts : list Account) (k : jsstring) :
  reuseCountInner cnt m accounts !! k
  = if existsb (λ a, bool_decide (accountKey a = k)) accounts
       && bool_decide (k ≠ lit "||")
    then Some cnt else m !! k.
Proof.
  unfold reuseCountInner. revert m.
  induction accounts as [|a accounts IH]; intros m; [done|].
  cbn [foldl existsb]. rewrite IH.
  change (keyOf (acc_site a) (acc_username a)) with (accountKey a).
  destruct (existsb _ accounts) eqn:Hrest; simpl.
  - rewrite orb_true_r. simpl.
    destruct (bool_decide (k ≠ lit "||")) eqn:Hk; [done|].
    destruct (bool_decide (accountKey a ≠ lit "||")) eqn:Ha; [|done].
    apply bool_decide_eq_false in Hk. apply bool_decide_eq_true in Ha.
    apply lookup_insert_ne. intros Heq. apply Hk. congruence.
  - rewrite orb_false_r.
    destruct (decide (accountKey a = k)) as [Heq|Hne].
    + rewrite (bool_decide_eq_true_2 _ Heq), Heq. cbn [andb].
      destruct (bool_decide (k ≠ lit "||")); [|done].
      apply lookup_insert_eq.
    + rewrite (bool_decide_eq_false_2 _ Hne). cbn [andb].
      destruct (bool_decide (accountKey a ≠ lit "||")); [|done].
      by apply lookup_insert_ne.
Qed.

Lemma reuseCountFold_snoc (m : gmap jsstring nat) (gs : list ReuseGroup)
    (g : ReuseGroup) (k : jsstring) :
  reuseCountFold m (gs ++ [g]) !! k
  = if groupHasKey k g && bool_decide (k ≠ lit "||")
    then Some (count g) else reuseCountFold m gs !! k.
Proof.
  unfold reuseCountFold. rewrite foldl_app. cbn [foldl].
  apply reuseCountInner_lookup.
Qed.

Lemma reuseCountFold_miss (m : gmap jsstring nat) (gs : list ReuseGroup)
    (k : jsstring) :
  (∀ g, g ∈ gs → groupHasKey k g = false) →
  reuseCountFold m gs !! k = m !! k.
Proof.
  induction gs as [|g gs IH] using rev_ind; intros Hmiss; [done|].
  rewrite reuseCountFold_snoc, Hmiss
    by (apply elem_of_app; right; apply list_elem_of_singleton; done).
  simpl. apply IH. intros g' Hg'. apply Hmiss. apply elem_of_app. by left.
Qed.

Lemma reuseCountFold_hit (m : gmap jsstring nat) (gs : list ReuseGroup)
    (k : jsstring) (c : nat) :
  k ≠ lit "||" →
  (∀ g, g ∈ gs → groupHasKey k g = true → count g = c) →
  (∃ g, g ∈ gs ∧ groupHasKey k g = true) →
  reuseCountFold m gs !! k = Some c.
Proof.
  intros Hk. induction gs as [|g gs IH] using rev_ind;
    intros Hcount (g0 & Hg0 & Hhit); [inversion Hg0|].
  rewrite reuseCountFold_snoc, (bool_decide_eq_true_2 _ Hk), andb_true_r.
  destruct (groupHasKey k g) eqn:Hg.
  - f_equal. apply Hcount; [|done].
    apply elem_of_app. right. by apply list_elem_of_singleton.
  - apply IH.
    + intros g' Hg' Hhit'. apply Hcount; [|done]. apply elem_of_app. by left.
    + apply elem_of_app in Hg0 as [Hg0|Hg0]; [eauto|].
      apply list_elem_of_singleton in Hg0 as ->. congruence.
Qed.

Lemma reuseCountFold_sound (gs : list ReuseGroup) (k : jsstring) (c : nat) :
  reuseCountFold ∅ gs !! k = Some c →
  k ≠ lit "||" ∧ ∃ g, g ∈ gs ∧ groupHasKey k g = true ∧ count g = c.
Proof.
  induction gs as [|g gs IH] using rev_ind.
  { unfold reuseCountFold. simpl. by rewrite lookup_empty. }
  rewrite reuseCountFold_snoc.
  destruct (groupHasKey k g) eqn:Hg,
    (bool_decide (k ≠ lit "||")) eqn:Hk; simpl.
  - intros [= <-]. apply bool_decide_eq_true in Hk. split; [done|].
    exists g. split; [|done].
    apply elem_of_app. right. by apply list_elem_of_singleton.
  - intros H. apply IH in H as (? & g' & ? & ?). split; [done|].
    exists g'. split; [|done]. apply elem_of_app. by left.
  - intros H. apply IH in H as (? & g' & ? & ?). split; [done|].
    exists g'. split; [|done]. apply elem_of_app. by left.
  - intros H. apply IH in H as (? & g' & ? & ?). split; [done|].
    exists g'. split; [|done]. apply elem_of_app. by left.
Qed.

Lemma groupHasKey_groupFor (entries : list Entry) (p k : jsstring) :
  groupHasKey k (groupFor entries p) = true ↔
  ∃ e, e ∈ entries ∧ password e = p ∧ entryKey e = k.
Proof.
  unfold groupHasKey, groupFor, accountsWith. cbn [sites].
  rewrite existsb_true_iff. split.
  - intros (a & Ha & Hk). apply bool_decide_eq_true in Hk.
    apply list_elem_of_fmap in Ha as (e & -> & He).
    apply list_elem_of_filter in He as [Hp He]. eauto.
  - intros (e & He & Hp & Hk). exists (accountOf e). split.
    + apply list_elem_of_fmap. exists e. split; [done|].
      by apply list_elem_of_filter.
    + by apply bool_decide_eq_true.
Qed.

(** The reuse count of an entry whose key goes with one password. *)
Lemma reuseCount_lookup_entry (entries : list Entry) (e : Entry) :
  e ∈ entries →
  entryKey e ≠ lit "||" →
  (∀ e', e' ∈ entries → entryKey e' = entryKey e →
         password e' = password e) →
  reuseCountByKey (analyze entries) !! entryKey e
  = if decide (2 ≤ occurrences entries (password e))
    then Some (occurrences entries (password e)) else None.
Proof.
  intros He Hk Hsame. rewrite reuseCountByKey_fold.
  change (reuseGroups (analyze entries)) with (analyzeReuseGroups entries).
  destruct (decide (2 ≤ occurrences entries (password e))) as [Hocc|Hocc].
  - apply reuseCountFold_hit; [done| |].
    + intros g Hg Hhit.
      apply elem_of_analyzeReuseGroups in Hg as (p & _ & ->).
      apply groupHasKey_groupFor in Hhit as (e' & He' & Hp & Hk').
      rewrite <- Hp, (Hsame e' He' Hk'). simpl. apply length_accountsWith.
    + exists (groupFor entries (password e)). split.
      * apply elem_of_analyzeReuseGroups. eauto.
      * apply groupHasKey_groupFor. eauto.
  - rewrite reuseCountFold_miss; [apply lookup_empty|].
    intros g Hg. apply elem_of_analyzeReuseGroups in Hg as (p & Hp & ->).
    apply not_true_is_false. intros Hhit.
    apply groupHasKey_groupFor in Hhit as (e' & He' & Hp' & Hk').
    rewrite <- Hp', (Hsame e' He' Hk') in Hp. done.
Qed.

Lemma reuseCount_lookup_sound (entries : list Entry) (k : jsstring)
    (c : nat) :
  reuseCountByKey (analyze entries) !! k = Some c →
  2 ≤ c ∧ k ≠ lit "||"
  ∧ ∃ e, e ∈ entries ∧ entryKey e = k
         ∧ c = occurrences entries (password e).
Proof.
  rewrite reuseCountByKey_fold.
  change (reuseGroups (analyze entries)) with (analyzeReuseGroups entries).
  intros H. apply reuseCountFold_sound in H as (Hk & g & Hg & Hhit & <-).
  apply elem_of_analyzeReuseGroups in Hg as (p & Hp & ->).
  apply groupHasKey_groupFor in Hhit as (e & He & <- & Hke).
  simpl. rewrite length_accountsWith. eauto 10.
Qed.

End ReuseCount.

(** X5. Join of the reuse groups with the entries: for an entry with a
    site or a user name whose key goes with one password only, the
    reuse-count lookup holds, under the key of the entry, the number of
    entries that have its password when that number is at least two,
    and nothing otherwise. *)
Theorem reuseCountByKey_entry (entries : list Entry) (e : Entry) :
  e ∈ entries →
  site e ≠ [] ∨ username e ≠ [] →
  (∀ e', e' ∈ entries → entryKey e' = entryKey e →
         password e' = password e) →
  reuseCountByKey (analyze entries) !! entryKey e
  = if decide (2 ≤ occurrences entries (password e))
    then Some (occurrences entries (password e)) else None.
Proof.
  intros He Hne Hsame. apply reuseCount_lookup_entry; [done| |done].
  unfold entryKey. rewrite keyOf_separator. tauto.
Qed.

Lemma reuseCountByKey_entry_witness :
  reuseCountByKey (analyze [entryAlpha; entryGamma; entryBeta])
    !! entryKey entryBeta = Some 2
  ∧ reuseCountByKey (analyze [entryAlpha; entryGamma; entryBeta])
      !! entryKey entryGamma = None.
Proof.
  assert (Hsame : ∀ e e', e ∈ [entryAlpha; entryGamma; entryBeta] →
                          e' ∈ [entryAlpha; entryGamma; entryBeta] →
                          entryKey e' = entryKey e → password e' = password e).
  { intros e e' He He'.
    repeat (apply elem_of_cons in He as [->|He]);
      repeat (apply elem_of_cons in He' as [->|He']);
      try (by inversion He); try (by inversion He');
      vm_compute; congruence. }
  assert (Hbeta : entryBeta ∈ [entryAlpha; entryGamma; entryBeta])
    by (do 2 right; left).
  assert (Hgamma : entryGamma ∈ [entryAlpha; entryGamma; entryBeta])
    by (right; left).
  split.
  - rewrite (reuseCountByKey_entry [entryAlpha; entryGamma; entryBeta]
               entryBeta); [reflexivity|exact Hbeta|by left|].
    intros e' He'. by apply Hsame.
  - rewrite (reuseCountByKey_entry [entryAlpha; entryGamma; entryBeta]
               entryGamma); [reflexivity|exact Hgamma|by left|].
    intros e' He'. by apply Hsame.
Defined.

(** X6. Every count in the reuse-count lookup is at least two, sits
    under the key of an entry and is the number of entries that have
    that entry's password; the key of an entry without site and user
    name is never in the lookup. *)
Theorem reuseCountByKey_sound (entries : list Entry) (k : jsstring)
    (c : nat) :
  reuseCountByKey (analyze entries) !! k = Some c →
  2 ≤ c ∧ k ≠ keyOf [] []
  ∧ ∃ e, e ∈ entries ∧ entryKey e = k
         ∧ c = occurrences entries (password e).
Proof. apply reuseCount_lookup_sound. Qed.

Lemma reuseCountByKey_sound_witness :
  2 ≤ 2 ∧ entryKey entryAlpha ≠ keyOf [] []
  ∧ ∃ e, e ∈ [entryAlpha; entryGamma; entryBeta]
         ∧ entryKey e = entryKey entryAlpha
         ∧ 2 = occurrences [entryAlpha; entryGamma; entryBeta] (password e).
Proof.
  apply (reuseCountByKey_sound [entryAlpha; entryGamma; entryBeta]).
  reflexivity.
Defined.

(** ** The displayed rows and the derived summary *)

Section DisplayedRows.
Variable urlHostname : jsstring → option jsstring.
Variable localeCompare : jsstring → jsstring → Z.
Variable toLowerCase : jsstring → jsstring.

Lemma elem_of_allResults (entries : list Entry) (rows : list Row)
    (minLength : Z) (issueMode : IssueMode) (sortMode : SortMode)
    (query : jsstring) (r : ResultRow) :
  r ∈ allResults urlHostname localeCompare toLowerCase entries rows
                 minLength issueMode sortMode query
  ↔ ∃ e, e ∈ entries
         ∧ r = candidateRow urlHostname rows
                 (reuseCountByKey (analyze entries))
                 (weakAdjustedByKey (analyze entries) (passwordByKey entries)
                                    minLength) e
         ∧ issueKeeps issueMode r = true
         ∧ searchKeeps toLowerCase query r = true.
Proof.
  unfold allResults.
  rewrite resultLoop_filter, app_nil_l, arraySort_perm.
  rewrite list_elem_of_filter, list_elem_of_fmap. split.
  - intros ([Hi Hs] & e & -> & He). eauto.
  - intros (e & He & -> & Hi & Hs). eauto.
Qed.

Lemma length_allResults (entries : list Entry) (rows : list Row)
    (minLength : Z) (issueMode : IssueMode) (sortMode : SortMode)
    (query : jsstring) :
  length (allResults urlHostname localeCompare toLowerCase entries rows
                     minLength issueMode sortMode query)
  ≤ length entries.
Proof.
  unfold allResults.
  rewrite resultLoop_filter, app_nil_l, arraySort_perm.
  etrans; [apply length_filter|]. by rewrite length_fmap.
Qed.

Lemma resultCompare_reuse_pos (a b : ResultRow) :
  (0 < resultCompare localeCompare SortReuseCount a b)%Z
  ↔ reuseCount a < reuseCount b.
Proof. unfold resultCompare. lia. Qed.

End DisplayedRows.

Section DerivedSummary.

Lemma foldl_count {A} (b : A → bool) (l : list A) (n : nat) :
  foldl (λ n x, if b x then S n else n) n l
  = n + length (filter (λ x, b x = true) l).
Proof.
  revert n. induction l as [|x l IH]; intros n; simpl; [lia|].
  rewrite IH, filter_cons. destruct (b x); simpl; lia.
Qed.

Lemma weakAdjusted_fold_size (pbk : gmap jsstring jsstring) (minLength : Z)
    (ws : list WeakFinding) (acc : gmap jsstring (list jsstring)) :
  size (foldl (weakAdjustedStep pbk minLength) acc ws) ≤ size acc + length ws.
Proof.
  revert acc. induction ws as [|w ws IH]; intros acc; simpl; [lia|].
  etrans; [apply IH|]. unfold weakAdjustedStep.
  destruct (0 <? length _); [|lia].
  rewrite map_size_insert. destruct (acc !! _); simpl; lia.
Qed.

Lemma filter_ext_elem {A} (P Q : A → Prop) `{∀ x, Decision (P x)}
    `{∀ x, Decision (Q x)} (l : list A) :
  (∀ x, x ∈ l → P x ↔ Q x) → filter P l = filter Q l.
Proof.
  induction l as [|x l IH]; intros Hext; [done|].
  rewrite !filter_cons, IH by (intros y Hy; apply Hext; by right).
  apply decide_ext, Hext. left.
Qed.

Lemma NoDup_fmap_same {A B} (f : A → B) (l : list A) (x y : A) :
  NoDup (f <$> l) → x ∈ l → y ∈ l → f x = f y → x = y.
Proof.
  induction l as [|a l IH]; csimpl; intros Hnd Hx Hy Heq; [inversion Hx|].
  apply NoDup_cons in Hnd as [Hnin Hnd].
  apply elem_of_cons in Hx as [->|Hx]; apply elem_of_cons in Hy as [->|Hy].
  - done.
  - destruct Hnin. rewrite Heq. apply list_elem_of_fmap. eauto.
  - destruct Hnin. rewrite <- Heq. apply list_elem_of_fmap. eauto.
  - by apply IH.
Qed.

End DerivedSummary.

(** X7. Every displayed row belongs to an entry and is consistent in
    itself: key, site, user name and domain label are those of the
    entry, the risk label is the label of the reuse count and weakness
    flag of the row, the row is weak exactly when it has reasons, and
    its reuse count is zero or the number (two or more) of entries that
    have the password of an entry with the key of the row. *)
Theorem displayed_row_invariant
    (urlHostname : jsstring → option jsstring)
    (localeCompare : jsstring → jsstring → Z)
    (toLowerCase : jsstring → jsstring)
    (entries : list Entry) (rows : list Row) (minLength : Z)
    (issueMode : IssueMode) (sortMode : SortMode) (query : jsstring)
    (r : ResultRow) :
  r ∈ allResults urlHostname localeCompare toLowerCase entries rows
                 minLength issueMode sortMode query →
  (∃ e, e ∈ entries ∧ key r = entryKey e ∧ rr_site r = site e
        ∧ rr_username r = username e
        ∧ domain r = asDomainLabel urlHostname (site e))
  ∧ risk r = riskLabel (reuseCount r) (isWeak r)
  ∧ (isWeak r = true ↔ weakReasons r ≠ [])
  ∧ (reuseCount r = 0
     ∨ 2 ≤ reuseCount r
       ∧ ∃ e, e ∈ entries ∧ entryKey e = key r
              ∧ reuseCount r = occurrences entries (password e)).
Proof.
  intros Hr. apply elem_of_allResults in Hr as (e & He & -> & _ & _).
  unfold candidateRow. cbn [key rr_site rr_username domain risk reuseCount
                            isWeak weakReasons].
  split; [eauto 10|]. split; [done|]. split.
  - destruct (default [] _); simpl; split; done.
  - destruct (reuseCountByKey (analyze entries) !! entryKey e) as [c|] eqn:Hc;
      simpl; [right|by left].
    apply reuseCount_lookup_sound in Hc as (Hc & _ & e' & He' & Hk & ->).
    eauto.
Qed.

Lemma displayed_row_invariant_witness :
  ∃ r, r ∈ allResults noHostname flatCompare toLowerCaseAscii
                      [entryAlpha; entryGamma; entryBeta] [] 12 IssueReuse
                      SortRisk []
       ∧ risk r = riskLabel (reuseCount r) (isWeak r)
       ∧ 2 ≤ reuseCount r.
Proof.
  exists (candidateRow noHostname []
            (reuseCountByKey (analyze [entryAlpha; entryGamma; entryBeta]))
            (weakAdjustedByKey (analyze [entryAlpha; entryGamma; entryBeta])
               (passwordByKey [entryAlpha; entryGamma; entryBeta]) 12)
            entryAlpha).
  assert (Hin : candidateRow noHostname []
            (reuseCountByKey (analyze [entryAlpha; entryGamma; entryBeta]))
            (weakAdjustedByKey (analyze [entryAlpha; entryGamma; entryBeta])
               (passwordByKey [entryAlpha; entryGamma; entryBeta]) 12)
            entryAlpha
          ∈ allResults noHostname flatCompare toLowerCaseAscii
              [entryAlpha; entryGamma; entryBeta] [] 12 IssueReuse
              SortRisk []).
  { vm_compute. left. }
  split; [exact Hin|].
  destruct (displayed_row_invariant noHostname flatCompare toLowerCaseAscii
              _ _ _ _ _ _ _ Hin)
    as (_ & Hrisk & _ & _).
  split; [exact Hrisk|]. vm_compute. lia.
Defined.

(** X8. The summary shown above the list agrees with the report on the
    totals and never counts more than it: the derived total and number
    of reuse groups are those of the report, the number of weak accounts
    under the live threshold is at most the number of baseline weak
    findings, whatever the threshold, and the number of reused accounts
    is at most the total. *)
Theorem derivedSummary_bounds (entries : list Entry) (minLength : Z) :
  let report := analyze entries in
  let ds :=
    derivedSummary entries report (reuseCountByKey report)
      (weakAdjustedByKey report (passwordByKey entries) minLength) in
  ds_total ds = total (summary report)
  ∧ ds_reuseGroups ds = reusedGroups (summary report)
  ∧ ds_weak ds ≤ weak (summary report)
  ∧ ds_reusedAccounts ds ≤ ds_total ds.
Proof.
  cbn zeta. split; [reflexivity|]. split; [reflexivity|]. split.
  - unfold derivedSummary, weakAdjustedByKey. cbn [ds_weak].
    etrans; [apply weakAdjusted_fold_size|].
    rewrite map_size_empty. reflexivity.
  - unfold derivedSummary. cbn [ds_reusedAccounts ds_total].
    rewrite (foldl_count
               (λ e, 2 <=? default 0 (reuseCountByKey (analyze entries)
                                        !! keyOf (site e) (username e)))).
    simpl. apply length_filter.
Qed.

(** X9. When the keys of the entries are pairwise different and every
    entry has a site or a user name, the number of reused accounts of
    the derived summary is the [reusedAccounts] of the report. *)
Theorem derivedSummary_reusedAccounts (entries : list Entry)
    (minLength : Z) :
  NoDup (entryKey <$> entries) →
  (∀ e, e ∈ entries → site e ≠ [] ∨ username e ≠ []) →
  let report := analyze entries in
  ds_reusedAccounts
    (derivedSummary entries report (reuseCountByKey report)
       (weakAdjustedByKey report (passwordByKey entries) minLength))
  = reusedAccounts (summary report).
Proof.
  intros Hnd Hne. cbn zeta. unfold derivedSummary. cbn [ds_reusedAccounts].
  rewrite (foldl_count
             (λ e, 2 <=? default 0 (reuseCountByKey (analyze entries)
                                      !! keyOf (site e) (username e)))).
  rewrite reusedAccounts_analyze, sum_count_analyze, Nat.add_0_l. f_equal.
  apply filter_ext_elem. intros e He.
  change (keyOf (site e) (username e)) with (entryKey e).
  rewrite reuseCount_lookup_entry.
  - destruct (decide (2 ≤ occurrences entries (password e))) as [Hocc|Hocc].
    + split; [done|]. intros _. by apply Nat.leb_le.
    + split; [|tauto]. intros H. vm_compute in H. discriminate.
  - done.
  - unfold entryKey. rewrite keyOf_separator. specialize (Hne e He). tauto.
  - intros e' He' Hk.
    by rewrite (NoDup_fmap_same entryKey entries e' e Hnd He' He Hk).
Qed.

Lemma derivedSummary_reusedAccounts_witness :
  ds_reusedAccounts
    (derivedSummary [entryAlpha; entryGamma; entryBeta]
       (analyze [entryAlpha; entryGamma; entryBeta])
       (reuseCountByKey (analyze [entryAlpha; entryGamma; entryBeta]))
       (weakAdjustedByKey (analyze [entryAlpha; entryGamma; entryBeta])
          (passwordByKey [entryAlpha; entryGamma; entryBeta]) 12))
  = reusedAccounts (summary (analyze [entryAlpha; entryGamma; entryBeta])).
Proof.
  apply (derivedSummary_reusedAccounts [entryAlpha; entryGamma; entryBeta] 12).
  - vm_compute. repeat constructor; intros H;
      repeat (apply elem_of_cons in H as [H|H]; [discriminate|]);
      inversion H.
  - intros e He. left.
    repeat (apply elem_of_cons in He as [->|He]; [discriminate|]).
    inversion He.
Defined.

Section PolicyChanges.

Lemma adjustWeakReasons_closed (rs : list jsstring) (pw : option jsstring)
    (minLength : Z) :
  adjustWeakReasons rs pw minLength
  = (if from_option truthy false pw && (0 <? from_option length 0 pw)
        && (Z.of_nat (from_option length 0%nat pw) <? minLength)%Z
     then [lengthReason minLength] else [])
    ++ filter (λ r, startsWith (lit "length") (toLowerCaseAscii r) = false) rs.
Proof.
  unfold adjustWeakReasons. rewrite strip_fold, app_nil_l.
  by destruct (_ && _ && _).
Qed.

Lemma lengthReason_prefix (minLength : Z) :
  startsWith (lit "length") (toLowerCaseAscii (lengthReason minLength)) = true.
Proof. reflexivity. Qed.

Lemma filter_idemp {A} (P : A → Prop) `{∀ x, Decision (P x)} (l : list A) :
  filter P (filter P l) = filter P l.
Proof. rewrite list_filter_filter. apply list_filter_iff. tauto. Qed.

Lemma filter_all {A} (P : A → Prop) `{∀ x, Decision (P x)} (l : list A) :
  (∀ x, x ∈ l → P x) → filter P l = l.
Proof.
  induction l as [|x l IH]; intros Hall; [done|].
  rewrite filter_cons, decide_True by (apply Hall; left).
  f_equal. apply IH. intros y Hy. apply Hall. by right.
Qed.

End PolicyChanges.

(** X10. Policy changes do not pile up: adjusting reasons that were
    already adjusted, with any password and threshold, gives what
    adjusting the original reasons with the new password and threshold
    gives.  The result has at most one reason of the length rule, and
    none when the password is missing or empty. *)
Theorem adjustWeakReasons_compose (rs : list jsstring)
    (pw1 pw2 : option jsstring) (m1 m2 : Z) :
  adjustWeakReasons (adjustWeakReasons rs pw1 m1) pw2 m2
  = adjustWeakReasons rs pw2 m2
  ∧ length (filter (λ r, startsWith (lit "length") (toLowerCaseAscii r)
                         = true)
                   (adjustWeakReasons rs pw2 m2)) ≤ 1
  ∧ Forall (λ r, startsWith (lit "length") (toLowerCaseAscii r) = false)
           (adjustWeakReasons rs None m2)
  ∧ Forall (λ r, startsWith (lit "length") (toLowerCaseAscii r) = false)
           (adjustWeakReasons rs (Some []) m2).
Proof.
  rewrite !adjustWeakReasons_closed. split; [|split; [|split]].
  - f_equal. rewrite filter_app, filter_idemp.
    destruct (_ && _ && _); [|done].
    rewrite filter_cons, decide_False; [done|].
    by rewrite lengthReason_prefix.
  - rewrite filter_app, list_filter_filter.
    rewrite (filter_ext_elem
               (λ r, startsWith (lit "length") (toLowerCaseAscii r) = true
                     ∧ startsWith (lit "length") (toLowerCaseAscii r) = false)
               (λ _, False) rs)
      by (intros r _; split; [intros [H1 H2]; congruence|done]).
    assert (Hnone : ∀ l : list jsstring, filter (λ _, False) l = []).
    { intros l. induction l as [|x l IHl]; [done|].
      rewrite filter_cons. destruct (decide False); [done|exact IHl]. }
    rewrite Hnone, app_nil_r.
    destruct (_ && _ && _); [|simpl; lia].
    rewrite filter_cons, filter_nil. destruct (decide _); simpl; lia.
  - simpl. apply Forall_forall. intros r Hr.
    by apply list_elem_of_filter in Hr as [? _].
  - simpl. apply Forall_forall. intros r Hr.
    by apply list_elem_of_filter in Hr as [? _].
Qed.

(** X11. No entry is displayed twice, and without filter none is left
    out: the list has at most as many rows as there are entries, and
    with the issue mode "all" and an empty trimmed query the keys of the
    rows are, up to the order, the keys of the entries.  The second part
    uses of the platform's [toLowerCase] that it maps the empty string to
    the empty string. *)
Theorem allResults_unfiltered
    (urlHostname : jsstring → option jsstring)
    (localeCompare : jsstring → jsstring → Z)
    (toLowerCase : jsstring → jsstring)
    (entries : list Entry) (rows : list Row) (minLength : Z)
    (issueMode : IssueMode) (sortMode : SortMode) (query : jsstring) :
  length (allResults urlHostname localeCompare toLowerCase entries rows
                     minLength issueMode sortMode query)
  ≤ length entries
  ∧ (toLowerCase [] = [] → trim query = [] →
     key <$> allResults urlHostname localeCompare toLowerCase entries rows
                        minLength IssueAll sortMode query
     ≡ₚ entryKey <$> entries).
Proof.
  split; [apply length_allResults|].
  intros Hnil Hq. unfold allResults.
  rewrite resultLoop_filter, app_nil_l, arraySort_perm.
  rewrite filter_all.
  - rewrite <- list_fmap_compose. done.
  - intros r _. split; [done|]. by apply searchKeeps_empty.
Qed.

Lemma allResults_unfiltered_witness :
  key <$> allResults noHostname flatCompare toLowerCaseAscii
                     [entryAlpha; entryGamma; entryBeta] [] 12 IssueAll
                     SortRisk (lit "  ")
  ≡ₚ entryKey <$> [entryAlpha; entryGamma; entryBeta].
Proof.
  apply (allResults_unfiltered noHostname flatCompare toLowerCaseAscii
           [entryAlpha; entryGamma; entryBeta] [] 12 IssueAll SortRisk
           (lit "  ")); reflexivity.
Defined.

(** X12. Under the sort by reuse count the displayed rows are in
    descending order of their reuse count, and rows of one reuse count
    are in the order of their entries. *)
Theorem allResults_sort_reuseCount
    (urlHostname : jsstring → option jsstring)
    (localeCompare : jsstring → jsstring → Z)
    (toLowerCase : jsstring → jsstring)
    (entries : list Entry) (rows : list Row) (minLength : Z)
    (issueMode : IssueMode) (query : jsstring) :
  let report := analyze entries in
  let kept :=
    filter (λ r, issueKeeps issueMode r = true
                 ∧ searchKeeps toLowerCase query r = true)
           (candidateRow urlHostname rows (reuseCountByKey report)
              (weakAdjustedByKey report (passwordByKey entries) minLength)
            <$> entries) in
  let shown :=
    allResults urlHostname localeCompare toLowerCase entries rows
               minLength issueMode SortReuseCount query in
  StronglySorted (λ a b, reuseCount b ≤ reuseCount a) shown
  ∧ ∀ c, filter (λ r, reuseCount r = c) shown
         = filter (λ r, reuseCount r = c) kept.
Proof.
  cbn zeta. unfold allResults. rewrite resultLoop_filter, app_nil_l. split.
  - apply (arraySort_sorted reuseCount), resultCompare_reuse_pos.
  - intros c. apply (arraySort_stable reuseCount), resultCompare_reuse_pos.
Qed.

Section Search.

Lemma toLowerCaseAscii_app (a b : jsstring) :
  toLowerCaseAscii (a ++ b) = toLowerCaseAscii a ++ toLowerCaseAscii b.
Proof. apply fmap_app. Qed.

Lemma startsWith_spec (p s : jsstring) :
  startsWith p s = true ↔ ∃ post, s = p ++ post.
Proof.
  revert s. induction p as [|a p IH]; intros s; simpl.
  - split; eauto.
  - destruct s as [|b s].
    + split; [discriminate|]. intros (post & Heq). discriminate.
    + rewrite andb_true_iff, N.eqb_eq, IH. split.
      * intros (-> & post & ->). eauto.
      * intros (post & Heq). injection Heq as -> ->. eauto.
Qed.

Lemma includes_spec (q s : jsstring) :
  includes q s = true ↔ isSubstring q s.
Proof.
  unfold isSubstring. induction s as [|c s IH].
  - simpl. rewrite orb_false_r, startsWith_spec. split.
    + intros (post & ->). by exists [], post.
    + intros (pre & post & Heq). destruct pre; [eauto|discriminate].
  - cbn [includes]. rewrite orb_true_iff, startsWith_spec, IH. split.
    + intros [(post & ->)|(pre & post & ->)].
      * by exists [], post.
      * by exists (c :: pre), post.
    + intros (pre & post & Heq). destruct pre as [|x pre].
      * left. eauto.
      * right. injection Heq as -> ->. eauto.
Qed.

End Search.

(** X13. On ASCII text the search ignores the case of the letters.
    Let the platform's lower-casing be, on ASCII text, the lower-casing
    of [A]-[Z], and let the trimmed query and the searched text of an
    entry (domain label, site, user name, URL) be ASCII.  If the trimmed
    query occurs in the site or in the user name up to the case of the
    letters [A]-[Z], then under the issue mode "all" the entry has a
    row, whatever the sort mode. *)
Theorem search_finds_entry
    (urlHostname : jsstring → option jsstring)
    (localeCompare : jsstring → jsstring → Z)
    (toLowerCase : jsstring → jsstring)
    (entries : list Entry) (rows : list Row) (minLength : Z)
    (sortMode : SortMode) (query : jsstring) (e : Entry) :
  foldsAscii toLowerCase →
  e ∈ entries →
  asciiText (trim query) = true →
  asciiText (asDomainLabel urlHostname (site e)) = true →
  asciiText (site e) = true →
  asciiText (username e) = true →
  (∀ r, rowBySite rows (site e) = Some r → asciiText (row_url r) = true) →
  isSubstring (toLowerCaseAscii (trim query)) (toLowerCaseAscii (site e))
  ∨ isSubstring (toLowerCaseAscii (trim query))
                (toLowerCaseAscii (username e)) →
  ∃ r, r ∈ allResults urlHostname localeCompare toLowerCase entries rows
                      minLength IssueAll sortMode query
       ∧ key r = entryKey e ∧ rr_site r = site e
       ∧ rr_username r = username e.
Proof.
  intros Hfold He Hq Hd Hs Hu Hurl Hsub.
  exists (candidateRow urlHostname rows (reuseCountByKey (analyze entries))
            (weakAdjustedByKey (analyze entries) (passwordByKey entries)
                               minLength) e).
  split; [|done].
  apply elem_of_allResults. exists e. split; [done|]. split; [done|].
  split; [done|].
  unfold searchKeeps, candidateRow.
  cbn [domain rr_site rr_username url].
  set (u := default [] _).
  assert (Hu' : asciiText u = true).
  { unfold u. destruct (rowBySite rows (site e)) as [r|] eqn:Hr; [|done].
    cbn. destruct (truthy (row_url r)); [|done]. by apply Hurl. }
  rewrite (Hfold (trim query) Hq).
  rewrite Hfold.
  2:{ unfold asciiText in *. rewrite !forallb_app.
      repeat (apply andb_true_intro; split);
        first [assumption | reflexivity]. }
  destruct (truthy (toLowerCaseAscii (trim query))); [|done]. cbn [negb orb].
  apply includes_spec.
  rewrite !toLowerCaseAscii_app.
  destruct Hsub as [(a & b & Hsite)|(a & b & Huser)].
  - exists (toLowerCaseAscii (asDomainLabel urlHostname (site e))
            ++ toLowerCaseAscii (lit " ") ++ a),
      (b ++ toLowerCaseAscii (lit " ") ++ toLowerCaseAscii (username e)
         ++ toLowerCaseAscii (lit " ") ++ toLowerCaseAscii u).
    rewrite Hsite, <- !app_assoc. reflexivity.
  - exists (toLowerCaseAscii (asDomainLabel urlHostname (site e))
            ++ toLowerCaseAscii (lit " ") ++ toLowerCaseAscii (site e)
            ++ toLowerCaseAscii (lit " ") ++ a),
      (b ++ toLowerCaseAscii (lit " ") ++ toLowerCaseAscii u).
    rewrite Huser, <- !app_assoc. reflexivity.
Qed.

Lemma search_finds_entry_witness :
  ∃ r, r ∈ allResults noHostname flatCompare toLowerCaseAscii
                      [entryAlpha; entryGamma; entryBeta] [] 12 IssueAll
                      SortRisk (lit " GAM ")
       ∧ key r = entryKey entryGamma ∧ rr_site r = site entryGamma
       ∧ rr_username r = username entryGamma.
Proof.
  apply (search_finds_entry noHostname flatCompare toLowerCaseAscii
           [entryAlpha; entryGamma; entryBeta] [] 12 SortRisk (lit " GAM ")
           entryGamma).
  - intros s _. reflexivity.
  - right. left.
  - reflexivity.
  - reflexivity.
  - reflexivity.
  - reflexivity.
  - intros r Hr. discriminate.
  - left. exists [], (lit "ma"). reflexivity.
Defined.

(** ** The suggested fixes *)

Section Fixes.

Lemma reasonHasFix_false (r : jsstring) :
  reasonHasFix r = false →
  startsWith (lit "length") (toLowerCaseAscii r) = false
  ∧ includes (lit "no uppercase") (toLowerCaseAscii r) = false
  ∧ includes (lit "no lowercase") (toLowerCaseAscii r) = false
  ∧ includes (lit "no number") (toLowerCaseAscii r) = false
  ∧ includes (lit "no symbol") (toLowerCaseAscii r) = false
  ∧ includes (lit "common pattern") (toLowerCaseAscii r) = false.
Proof.
  unfold reasonHasFix. rewrite !orb_false_iff. tauto.
Qed.

Lemma existsb_unknown (t : jsstring → bool) (rs : list jsstring) :
  (∀ r, r ∈ rs → t r = false) → existsb t rs = false.
Proof. intros H. by apply existsb_false_iff. Qed.

Lemma fixTextFor_nothing (reuseCount : nat) (rs : list jsstring)
    (minLength : Z) :
  reuseCount < 2 → (∀ r, r ∈ rs → reasonHasFix r = false) →
  fixTextFor reuseCount rs minLength = [noActionText].
Proof.
  intros Hrc Hall. unfold fixTextFor.
  apply Nat.leb_gt in Hrc. rewrite Hrc.
  rewrite !existsb_unknown; [reflexivity|..];
    intros r Hr; apply Hall, reasonHasFix_false in Hr; tauto.
Qed.

Lemma length_pushIf (b : bool) (text : jsstring) (fixes : list jsstring) :
  length (pushIf b text fixes) = length fixes + (if b then 1 else 0).
Proof. destruct b; unfold pushIf, push; rewrite ?length_app; simpl; lia. Qed.

Lemma pushIf_other (b : bool) (text x : jsstring) (fixes : list jsstring) :
  text ≠ x → x ∉ fixes → x ∉ pushIf b text fixes.
Proof.
  intros Hne Hnin. destruct b; [|done]. unfold pushIf, push.
  rewrite elem_of_app, list_elem_of_singleton. intros [?|?]; congruence.
Qed.

(** [fixTextFor] as its seven conditional pushes and the final test. *)
Lemma fixTextFor_pushes (reuseCount : nat) (rs : list jsstring)
    (minLength : Z) :
  fixTextFor reuseCount rs minLength
  = if negb (0 <? length (fixPushes reuseCount rs minLength))
    then [noActionText] else fixPushes reuseCount rs minLength.
Proof.
  assert (H : fixTextFor reuseCount rs minLength
              = let fixes := fixPushes reuseCount rs minLength in
                if negb (0 <? length fixes) then push fixes noActionText
                else fixes) by reflexivity.
  rewrite H. cbn zeta. by destruct (fixPushes reuseCount rs minLength).
Qed.

Lemma length_fixPushes (reuseCount : nat) (rs : list jsstring)
    (minLength : Z) :
  length (fixPushes reuseCount rs minLength)
  = (if 2 <=? reuseCount then 1 else 0)
    + (if existsb (λ r, startsWith (lit "length") (toLowerCaseAscii r)) rs
       then 1 else 0)
    + (if existsb (λ r, includes (lit "no uppercase") (toLowerCaseAscii r)) rs
       then 1 else 0)
    + (if existsb (λ r, includes (lit "no lowercase") (toLowerCaseAscii r)) rs
       then 1 else 0)
    + (if existsb (λ r, includes (lit "no number") (toLowerCaseAscii r)) rs
       then 1 else 0)
    + (if existsb (λ r, includes (lit "no symbol") (toLowerCaseAscii r)) rs
       then 1 else 0)
    + (if existsb (λ r, includes (lit "common pattern") (toLowerCaseAscii r)) rs
       then 1 else 0).
Proof. unfold fixPushes. rewrite !length_pushIf. simpl. lia. Qed.

Lemma fixTextFor_something (reuseCount : nat) (rs : list jsstring)
    (minLength : Z) :
  (2 ≤ reuseCount ∨ ∃ r, r ∈ rs ∧ reasonHasFix r = true) →
  (noActionText ∉ fixTextFor reuseCount rs minLength)
  ∧ fixTextFor reuseCount rs minLength ≠ [].
Proof.
  intros Hsome. rewrite fixTextFor_pushes.
  assert (Hlen : 0 < length (fixPushes reuseCount rs minLength)).
  { rewrite length_fixPushes. destruct Hsome as [Hge|(r & Hr & Hfix)].
    - apply Nat.leb_le in Hge as ->. lia.
    - unfold reasonHasFix in Hfix. rewrite !orb_true_iff in Hfix.
      assert (Hex : ∀ t : jsstring → bool, t r = true → existsb t rs = true)
        by (intros t Ht; apply existsb_true_iff; eauto).
      destruct Hfix as [[[[[H|H]|H]|H]|H]|H];
        rewrite (Hex _ H); lia. }
  apply Nat.ltb_lt in Hlen as Hlenb. rewrite Hlenb. simpl.
  split; [|intros Hnil; rewrite Hnil in Hlen; simpl in Hlen; lia].
  unfold fixPushes.
  repeat (apply pushIf_other; [intros H; vm_compute in H; discriminate H|]).
  apply not_elem_of_nil.
Qed.

End Fixes.

(** X14. The list of suggested fixes is never empty, and it is the single
    line "No action needed based on current checks." exactly when the
    reuse count is below two and no reason is answered by a suggestion;
    otherwise that line does not occur in it. *)
Theorem fixTextFor_no_action (reuseCount : nat) (rs : list jsstring)
    (minLength : Z) :
  fixTextFor reuseCount rs minLength ≠ []
  ∧ (fixTextFor reuseCount rs minLength = [noActionText]
     ↔ reuseCount < 2 ∧ ∀ r, r ∈ rs → reasonHasFix r = false)
  ∧ (noActionText ∈ fixTextFor reuseCount rs minLength
     → fixTextFor reuseCount rs minLength = [noActionText]).
Proof.
  destruct (decide (reuseCount < 2)) as [Hrc|Hrc].
  - destruct (existsb reasonHasFix rs) eqn:Hex.
    + apply existsb_true_iff in Hex.
      destruct (fixTextFor_something reuseCount rs minLength) as [Hno Hne];
        [by right|].
      split; [done|]. split; [|done]. split.
      * intros Heq. destruct Hno. rewrite Heq. left.
      * intros [_ Hall]. destruct Hex as (r & Hr & Hfix).
        rewrite (Hall r Hr) in Hfix. discriminate.
    + rewrite existsb_false_iff in Hex.
      rewrite (fixTextFor_nothing reuseCount rs minLength Hrc Hex).
      split; [done|]. split; [|done]. tauto.
  - destruct (fixTextFor_something reuseCount rs minLength) as [Hno Hne];
      [left; lia|].
    split; [done|]. split; [|done]. split.
    + intros Heq. destruct Hno. rewrite Heq. left.
    + intros [? _]. done.
Qed.

Section FixPerReason.

Lemma startsWith_app_foreign (q a s : jsstring) :
  (∀ c, c ∈ s → c ∉ q) → startsWith q (a ++ s) = startsWith q a.
Proof.
  intros Hforeign. revert a. induction q as [|p q IH]; intros a; [done|].
  assert (Hq : ∀ c, c ∈ s → c ∉ q).
  { intros c Hc Hin. apply (Hforeign c Hc). by right. }
  destruct a as [|x a]; simpl.
  - destruct s as [|c s]; [done|]. simpl.
    destruct (N.eqb_spec p c) as [->|Hne]; [|done].
    destruct (Hforeign c); left.
  - by rewrite IH.
Qed.

Lemma includes_app_foreign (q a s : jsstring) :
  (∀ c, c ∈ s → c ∉ q) → includes q (a ++ s) = includes q a.
Proof.
  intros Hforeign. induction a as [|x a IH].
  - rewrite app_nil_l. induction s as [|c s IHs]; [done|].
    cbn [includes]. rewrite IHs by (intros c' Hc'; apply Hforeign; by right).
    replace (startsWith q (c :: s)) with (startsWith q []);
      [cbn [includes]; by destruct (startsWith q [])|].
    symmetry. apply (startsWith_app_foreign q [] (c :: s) Hforeign).
  - change ((x :: a) ++ s) with (x :: a ++ s). cbn [includes].
    rewrite IH. f_equal.
    apply (startsWith_app_foreign q (x :: a) s Hforeign).
Qed.

Lemma string_of_uint_numeric (d : Decimal.uint) :
  Forall (λ c, numericUnit c = true) (lit (NilEmpty.string_of_uint d)).
Proof. induction d; unfold lit in *; csimpl; constructor; done. Qed.

Lemma numberToString_numeric (n : Z) :
  Forall (λ c, numericUnit c = true) (numberToString n).
Proof.
  unfold numberToString. destruct (Z.to_int n) as [d|d]; simpl.
  - destruct d; try apply (string_of_uint_numeric (_ d)).
    repeat constructor.
  - constructor; [done|].
    destruct d; try apply (string_of_uint_numeric (_ d)).
    repeat constructor.
Qed.

Lemma lowerUnit_numeric (c : codeunit) :
  numericUnit c = true → numericUnit (lowerUnit c) = true.
Proof.
  unfold numericUnit, lowerUnit, isDigit09, isUpperAZ.
  rewrite orb_true_iff, in_range_spec, N.eqb_eq. intros Hc.
  destruct (in_range 65%N 90%N c) eqn:Hu;
    [|by rewrite orb_true_iff, in_range_spec, N.eqb_eq].
  apply in_range_spec in Hu. lia.
Qed.

(** A text without digit and minus sign does not occur in a length
    reason beyond its fixed part. *)
Lemma includes_lengthReason (q : jsstring) (minLength : Z) :
  forallb (λ c, negb (numericUnit c)) q = true →
  includes q (toLowerCaseAscii (lengthReason minLength))
  = includes q (lit "length < ").
Proof.
  intros Hq. unfold lengthReason. rewrite toLowerCaseAscii_app.
  change (toLowerCaseAscii (lit "Length < ")) with (lit "length < ").
  apply includes_app_foreign. intros c Hc Hin.
  unfold toLowerCaseAscii in Hc. apply list_elem_of_fmap in Hc as (c' & -> & Hc').
  pose proof (numberToString_numeric minLength) as Hnum.
  rewrite Forall_forall in Hnum. apply Hnum, lowerUnit_numeric in Hc'.
  rewrite forallb_forall in Hq. apply list_elem_of_In, Hq in Hin.
  rewrite Hc' in Hin. discriminate.
Qed.

Lemma existsb_cons_nil {A} (t : A → bool) (x : A) :
  existsb t [x] = t x.
Proof. simpl. apply orb_false_r. Qed.

(** The reasons of a password other than the length one, from the five
    tests. *)
Lemma otherReasons_flags (pw : jsstring) :
  otherReasons pw
  = (if hasLower pw then [] else [lit "No lowercase"])
    ++ (if hasUpper pw then [] else [lit "No uppercase"])
    ++ (if hasDigit pw then [] else [lit "No number"])
    ++ (if hasSymbol pw then [] else [lit "No symbol"])
    ++ (if hasCommonPattern pw then [lit "Common pattern"] else []).
Proof.
  unfold otherReasons, weakCheckReasons.
  destruct (length pw <? 12), (hasLower pw), (hasUpper pw), (hasDigit pw),
    (hasSymbol pw), (hasCommonPattern pw); reflexivity.
Qed.

End FixPerReason.

(** X15. Every reason shown for a password gets one suggestion: for the
    policy-adjusted reasons of a password the list of fixes has one line
    for a reuse count of two or more and one line for each reason, and
    the single "no action" line when there is neither. *)
Theorem fixTextFor_one_per_reason (reuseCount : nat) (pw : jsstring)
    (minLength : Z) :
  length (fixTextFor reuseCount (adjustedReasons pw minLength) minLength)
  = Nat.max 1 ((if 2 <=? reuseCount then 1 else 0)
               + length (adjustedReasons pw minLength)).
Proof.
  rewrite fixTextFor_pushes.
  assert (Hlen : length (fixPushes reuseCount (adjustedReasons pw minLength)
                                   minLength)
                 = (if 2 <=? reuseCount then 1 else 0)
                   + length (adjustedReasons pw minLength)).
  { rewrite length_fixPushes. unfold adjustedReasons.
    rewrite !existsb_app, otherReasons_flags.
    destruct (decide _) as [_|_].
    - rewrite !existsb_cons_nil, lengthReason_prefix.
      rewrite !includes_lengthReason by reflexivity.
      destruct (2 <=? reuseCount), (hasLower pw), (hasUpper pw),
        (hasDigit pw), (hasSymbol pw), (hasCommonPattern pw); reflexivity.
    - destruct (2 <=? reuseCount), (hasLower pw), (hasUpper pw),
        (hasDigit pw), (hasSymbol pw), (hasCommonPattern pw); reflexivity. }
  destruct (fixPushes reuseCount (adjustedReasons pw minLength) minLength)
    as [|f fs]; simpl in *; rewrite <- Hlen; reflexivity || lia.
Qed.

(** ** Parsing and the entries of the component *)

Section Parsing.

Lemma List_filter_stdpp {A} (f : A → bool) (l : list A) :
  List.filter f l = filter (λ x, f x = true) l.
Proof.
  induction l as [|x l IH]; [done|].
  simpl. rewrite filter_cons, IH. by destruct (f x).
Qed.

Lemma site_rowEntry (r : Row) : site (rowEntry r) ≠ [].
Proof.
  unfold rowEntry. simpl.
  destruct (row_name r) eqn:Hn; simpl; [|done].
  destruct (row_url r) eqn:Hu; simpl; done.
Qed.

Lemma filter_rowEntry (rows : list Row) :
  List.filter (λ e, truthy (site e) || truthy (username e)
                    || truthy (password e))
              (rowEntry <$> rows)
  = rowEntry <$> rows.
Proof.
  rewrite List_filter_stdpp. apply filter_all. intros e He.
  apply list_elem_of_fmap in He as (r & -> & _).
  pose proof (site_rowEntry r) as Hs.
  destruct (site (rowEntry r)); [done|reflexivity].
Qed.

Lemma trim_nil : trim [] = [].
Proof. reflexivity. Qed.

Lemma keepEntry_password (rows : list Row) (ignoreDevUrls : bool)
    (e : Entry) :
  keepEntry rows ignoreDevUrls e = true → trim (password e) ≠ [].
Proof.
  unfold keepEntry.
  destruct (trim (password e)) eqn:Ht; [|done].
  rewrite orb_true_r. discriminate.
Qed.

Lemma keepEntry_no_filter (rows : list Row) (e : Entry) :
  keepEntry rows false e = true ↔ trim (password e) ≠ [].
Proof.
  split; [apply keepEntry_password|].
  unfold keepEntry. intros Ht.
  destruct (password e) as [|c pw] eqn:Hp; [done|]. simpl.
  destruct (trim (c :: pw)); done.
Qed.

End Parsing.

(** X16. [parseCSV] succeeds exactly when the parser reported no error
    and the five required columns are among the header fields.  Then no
    row is lost: there is one entry per data row, in order, with the
    trimmed user name and password of the row, and its site is never
    empty (the name, else the URL, else "(unknown)"), so its key is
    never the bare separator. *)
Theorem parseCSV_result (parsed : PapaResult) :
  match parseCSV parsed with
  | ParseOk rows entries =>
      papa_errors parsed = []
      ∧ (∀ c, c ∈ requiredColumns → c ∈ default [] (papa_fields parsed))
      ∧ rows = trimRow <$> papa_data parsed
      ∧ entries = rowEntry <$> rows
      ∧ length entries = length (papa_data parsed)
      ∧ ∀ e, e ∈ entries → site e ≠ [] ∧ entryKey e ≠ keyOf [] []
  | ParseError _ =>
      papa_errors parsed ≠ []
      ∨ ∃ c, c ∈ requiredColumns ∧ c ∉ default [] (papa_fields parsed)
  end.
Proof.
  unfold parseCSV. destruct (papa_errors parsed) as [|message errors];
    [|by left].
  rewrite filter_rowEntry, List_filter_stdpp.
  destruct (filter _ requiredColumns) as [|c missing] eqn:Hmissing; simpl.
  - split; [done|]. split.
    + intros c Hc.
      destruct (decide (c ∈ default [] (papa_fields parsed))) as [|Hnin];
        [done|].
      assert (Hin : c ∈ filter
                (λ k, negb (bool_decide (k ∈ default [] (papa_fields parsed)))
                      = true) requiredColumns).
      { apply list_elem_of_filter. split; [|done].
        by rewrite bool_decide_eq_false_2. }
      rewrite Hmissing in Hin. inversion Hin.
    + split; [done|]. split; [done|]. split; [by rewrite !length_fmap|].
      intros e He. apply list_elem_of_fmap in He as (r & -> & _).
      pose proof (site_rowEntry r) as Hs. split; [done|].
      unfold entryKey. rewrite keyOf_separator. tauto.
  - right. exists c.
    assert (Hin : c ∈ filter
              (λ k, negb (bool_decide (k ∈ default [] (papa_fields parsed)))
                    = true) requiredColumns)
      by (rewrite Hmissing; left).
    apply list_elem_of_filter in Hin as [Hc Hin]. split; [done|].
    apply negb_true_iff, bool_decide_eq_false in Hc. done.
Qed.

(** X17. The entries that the component analyses are a selection, in
    order, of the parsed entries; each has a password that is not blank;
    without the dev-URL option the selection is exactly the parsed
    entries with a password that is not blank, and with the option an
    entry with such a password stays when no row has a dev URL. *)
Theorem appEntries_selection (rows : list Row) (entries : list Entry)
    (ignoreDevUrls : bool) :
  let kept := appEntries (Some (ParseOk rows entries)) ignoreDevUrls in
  kept `sublist_of` entries
  ∧ (∀ e, e ∈ kept → trim (password e) ≠ [] ∧ password e ≠ [])
  ∧ (ignoreDevUrls = false →
     kept = filter (λ e, trim (password e) ≠ []) entries)
  ∧ ((∀ r, r ∈ rows → isDevUrl (row_url r) = false) →
     kept = filter (λ e, trim (password e) ≠ []) entries).
Proof.
  cbn zeta. unfold appEntries, appRows. rewrite List_filter_stdpp.
  split; [apply sublist_filter|]. split; [|split].
  - intros e He. apply list_elem_of_filter in He as [Hk _].
    apply keepEntry_password in Hk. split; [done|].
    intros Hp. rewrite Hp in Hk. done.
  - intros ->. apply list_filter_iff. intros e. apply keepEntry_no_filter.
  - intros Hnodev. apply list_filter_iff. intros e.
    split; [apply keepEntry_password|]. intros Ht.
    pose proof (proj2 (keepEntry_no_filter rows e) Ht) as Hk.
    unfold keepEntry in *.
    destruct (negb (truthy (password e)) || (length (trim (password e)) =? 0));
      [done|].
    destruct ignoreDevUrls; [|done].
    destruct (List.find _ rows) as [row|] eqn:Hfind; [|done].
    apply find_some in Hfind as [Hrow _].
    apply list_elem_of_In in Hrow. rewrite (Hnodev row Hrow).
    by rewrite andb_false_r.
Qed.

Lemma appEntries_selection_witness :
  appEntries
    (Some (ParseOk [mkRow (lit "alpha") (lit "https://alpha.example")
                          (lit "ann") (lit "aaaaaaaaaaaa") []]
                   [entryAlpha; mkEntry (lit "blank") (lit "bob") (lit "  ")]))
    false
  = filter (λ e, trim (password e) ≠ [])
           [entryAlpha; mkEntry (lit "blank") (lit "bob") (lit "  ")].
Proof.
  destruct (appEntries_selection
              [mkRow (lit "alpha") (lit "https://alpha.example") (lit "ann")
                     (lit "aaaaaaaaaaaa") []]
              [entryAlpha; mkEntry (lit "blank") (lit "bob") (lit "  ")]
              false)
    as (_ & _ & Hoff & _).
  apply Hoff. reflexivity.
Defined.

(** ** Dev URLs and the domain label *)

Section Literals.

Lemma canonicalize_notUpper (p c : codeunit) :
  notUpperUnit p = true →
  (canonicalize p =? canonicalize c)%N = (p =? lowerUnit c)%N.
Proof.
  unfold notUpperUnit, canonicalize, lowerUnit, isLowerAZ, isUpperAZ.
  rewrite negb_true_iff. intros Hp.
  destruct (in_range 97%N 122%N p) eqn:Hpl, (in_range 97%N 122%N c) eqn:Hcl,
    (in_range 65%N 90%N c) eqn:Hcu.
  all: repeat match goal with
       | H : in_range _ _ _ = true |- _ => apply in_range_spec in H
       | H : in_range _ _ _ = false |- _ => apply in_range_false in H
       end.
  all: try lia.
  all: apply eq_true_iff_eq; rewrite !N.eqb_eq; lia.
Qed.

Lemma stripLiteralCI_app (w pre rest : jsstring) :
  forallb notUpperUnit w = true → toLowerCaseAscii pre = w →
  stripLiteralCI w (pre ++ rest) = Some rest.
Proof.
  revert pre. induction w as [|p w IH]; intros pre Hw Hpre.
  - apply fmap_nil_inv in Hpre as ->. done.
  - simpl in Hw. apply andb_true_iff in Hw as [Hp Hw].
    destruct pre as [|c pre]; [discriminate|].
    unfold toLowerCaseAscii in Hpre. csimpl in Hpre. injection Hpre as Hc Hpre.
    simpl. rewrite canonicalize_notUpper, Hc, N.eqb_refl by done.
    by apply IH.
Qed.

Lemma stripLiteralCI_Some (w s rest : jsstring) :
  forallb notUpperUnit w = true → stripLiteralCI w s = Some rest →
  ∃ pre, s = pre ++ rest ∧ toLowerCaseAscii pre = w.
Proof.
  revert s. induction w as [|p w IH]; intros s Hw Hs; simpl in Hs.
  - injection Hs as ->. by exists [].
  - simpl in Hw. apply andb_true_iff in Hw as [Hp Hw].
    destruct s as [|c s]; [discriminate|].
    rewrite canonicalize_notUpper in Hs by done.
    destruct (N.eqb_spec p (lowerUnit c)) as [->|]; [|discriminate].
    apply IH in Hs as (pre & -> & <-); [|done].
    by exists (c :: pre).
Qed.

Lemma stripLiteralCI_mismatch (p c : codeunit) (w s : jsstring) :
  notUpperUnit p = true → p ≠ lowerUnit c →
  stripLiteralCI (p :: w) (c :: s) = None.
Proof.
  intros Hp Hne. simpl. rewrite canonicalize_notUpper by done.
  by destruct (N.eqb_spec p (lowerUnit c)).
Qed.


Lemma stripScheme_Some (url rest : jsstring) :
  stripScheme url = Some rest →
  ∃ pre, url = pre ++ rest ∧ hasScheme pre.
Proof.
  unfold stripScheme, hasScheme.
  destruct (stripLiteralCI (lit "http") url) as [r|] eqn:Hhttp; [|done].
  apply stripLiteralCI_Some in Hhttp as (p1 & -> & Hp1); [|done].
  cbn [mbind option_bind].
  destruct (stripLiteralCI (lit "s") r) as [r'|] eqn:Hs; cbn [mbind option_bind].
  - destruct (stripLiteralCI (lit "://") r') as [r''|] eqn:Hc.
    + intros [= ->].
      apply stripLiteralCI_Some in Hs as (p2 & -> & Hp2); [|done].
      apply stripLiteralCI_Some in Hc as (p3 & -> & Hp3); [|done].
      exists (p1 ++ p2 ++ p3). split; [by rewrite <- !app_assoc|].
      right. by rewrite !toLowerCaseAscii_app, Hp1, Hp2, Hp3.
    + intros Hc'. apply stripLiteralCI_Some in Hc' as (p3 & -> & Hp3); [|done].
      exists (p1 ++ p3). split; [by rewrite <- !app_assoc|].
      left. by rewrite !toLowerCaseAscii_app, Hp1, Hp3.
  - intros Hc'. apply stripLiteralCI_Some in Hc' as (p3 & -> & Hp3); [|done].
    exists (p1 ++ p3). split; [by rewrite <- !app_assoc|].
    left. by rewrite !toLowerCaseAscii_app, Hp1, Hp3.
Qed.

Lemma stripScheme_app (pre rest : jsstring) :
  hasScheme pre → stripScheme (pre ++ rest) = Some rest.
Proof.
  unfold hasScheme, stripScheme. intros [Hpre|Hpre].
  - change (lit "http://") with (lit "http" ++ lit "://") in Hpre.
    unfold toLowerCaseAscii in Hpre.
    apply fmap_app_inv in Hpre as (p1 & p2 & Hp1 & Hp2 & ->).
    rewrite <- app_assoc, stripLiteralCI_app by done.
    cbn [mbind option_bind].
    destruct p2 as [|c p2]; [discriminate|].
    pose proof Hp2 as Hp2'. csimpl in Hp2. injection Hp2 as Hc Hp2.
    change (stripLiteralCI (lit "s") ((c :: p2) ++ rest))
      with (stripLiteralCI [115%N] (c :: (p2 ++ rest))).
    rewrite (stripLiteralCI_mismatch 115%N c)
      by (done || (intros Heq; rewrite <- Heq in Hc; vm_compute in Hc;
                   discriminate)).
    cbn [mbind option_bind].
    change (c :: p2 ++ rest) with ((c :: p2) ++ rest).
    by apply stripLiteralCI_app.
  - change (lit "https://") with (lit "http" ++ lit "s" ++ lit "://") in Hpre.
    unfold toLowerCaseAscii in Hpre.
    apply fmap_app_inv in Hpre as (p1 & p23 & Hp1 & Hp23 & ->).
    symmetry in Hp23.
    apply fmap_app_inv in Hp23 as (p2 & p3 & Hp2 & Hp3 & ->).
    rewrite <- !app_assoc, stripLiteralCI_app by done.
    cbn [mbind option_bind].
    rewrite stripLiteralCI_app by done. cbn [mbind option_bind].
    by rewrite stripLiteralCI_app.
Qed.

Lemma isDevUrl_no_scheme (url : jsstring) :
  stripScheme url = None → isDevUrl url = false.
Proof.
  intros H. unfold isDevUrl, devLocalhost, devLoopback, devAnyAddress,
    dev192, dev10, dev172. by rewrite H.
Qed.

End Literals.

(** X18. Only a URL with a scheme counts as a dev URL: when [isDevUrl]
    holds the URL starts, letter case aside, with [http://] or
    [https://]. A bare [localhost:3000] or [10.0.0.1] is not one. *)
Theorem isDevUrl_needs_scheme (url : jsstring) :
  isDevUrl url = true →
  ∃ pre rest, url = pre ++ rest ∧ hasScheme pre.
Proof.
  intros Hdev. destruct (stripScheme url) as [rest|] eqn:Hs.
  - apply stripScheme_Some in Hs as (pre & -> & Hpre). eauto.
  - rewrite isDevUrl_no_scheme in Hdev by done. discriminate.
Qed.

Lemma isDevUrl_needs_scheme_witness :
  ∃ pre rest, lit "HTTP://LocalHost:8080/admin" = pre ++ rest ∧ hasScheme pre.
Proof.
  apply (isDevUrl_needs_scheme (lit "HTTP://LocalHost:8080/admin")).
  reflexivity.
Defined.

(** X19. Behind a scheme, every address that starts with [10.] or
    [192.168.] is a dev URL, whatever follows; an address that starts
    with [172.], two digits and a dot is one exactly when the two digits
    read 16 to 31; [localhost] and [127.0.0.1] are dev URLs exactly when
    they are followed by the end of the text or by a character that is
    not a letter, digit or underscore, so [localhost.example.com] is one
    too and [localhosts] is not. *)
Theorem isDevUrl_ranges (pre rest : jsstring) :
  hasScheme pre →
  isDevUrl (pre ++ lit "10." ++ rest) = true
  ∧ isDevUrl (pre ++ lit "192.168." ++ rest) = true
  ∧ (∀ a b, a < 10 → b < 10 →
       isDevUrl (pre ++ lit "172." ++ [digitUnit a; digitUnit b] ++ lit "."
                     ++ rest)
       = bool_decide (16 ≤ 10 * a + b ≤ 31))
  ∧ isDevUrl (pre ++ lit "localhost" ++ rest) = atWordEnd rest
  ∧ isDevUrl (pre ++ lit "127.0.0.1" ++ rest) = atWordEnd rest.
Proof.
  intros Hpre.
  assert (Hs : ∀ x, stripScheme (pre ++ x) = Some x)
    by (intros x; by apply stripScheme_app).
  unfold isDevUrl, devLocalhost, devLoopback, devAnyAddress, dev192, dev10,
    dev172.
  split; [rewrite !Hs; reflexivity|].
  split; [rewrite !Hs; reflexivity|].
  split; [|split].
  - intros a b Ha Hb. rewrite !Hs.
    do 10 (destruct a as [|a];
           [do 10 (destruct b as [|b]; [reflexivity|]); lia|]).
    lia.
  - rewrite !Hs. cbn. by rewrite !orb_false_r.
  - rewrite !Hs. cbn. by rewrite !orb_false_r.
Qed.

Lemma isDevUrl_ranges_witness :
  isDevUrl (lit "https://" ++ lit "10." ++ lit "1.2.3/login") = true
  ∧ isDevUrl (lit "https://" ++ lit "localhost" ++ lit ".example.com") = true
  ∧ isDevUrl (lit "https://" ++ lit "172." ++ [digitUnit 3; digitUnit 2]
                  ++ lit "." ++ lit "0.1")
    = false.
Proof.
  destruct (isDevUrl_ranges (lit "https://") (lit "1.2.3/login"))
    as (H10 & _); [by right|].
  destruct (isDevUrl_ranges (lit "https://") (lit ".example.com"))
    as (_ & _ & _ & Hlocal & _); [by right|].
  destruct (isDevUrl_ranges (lit "https://") (lit "0.1"))
    as (_ & _ & H172 & _); [by right|].
  split; [exact H10|]. split; [rewrite Hlocal; reflexivity|].
  rewrite (H172 3 2) by lia. reflexivity.
Defined.



(** ** The demo masks *)

Section Masks.

Lemma indexOfUnit_first (c : codeunit) (l d : jsstring) :
  c ∉ l → indexOfUnit c (l ++ c :: d) = Some (length l).
Proof.
  induction l as [|x l IH]; intros Hnin; simpl.
  - by rewrite N.eqb_refl.
  - apply not_elem_of_cons in Hnin as [Hne Hnin].
    destruct (N.eqb_spec x c) as [->|_]; [done|].
    by rewrite IH.
Qed.

Lemma indexOfUnit_none (c : codeunit) (l : jsstring) :
  c ∉ l → indexOfUnit c l = None.
Proof.
  induction l as [|x l IH]; intros Hnin; simpl; [done|].
  apply not_elem_of_cons in Hnin as [Hne Hnin].
  destruct (N.eqb_spec x c) as [->|_]; [done|].
  by rewrite IH.
Qed.

Lemma splitOn_whole (sep : codeunit) (s : jsstring) :
  sep ∉ s → splitOn sep s = [s].
Proof.
  induction s as [|c s IH]; intros Hnin; simpl; [done|].
  apply not_elem_of_cons in Hnin as [Hne Hnin].
  destruct (N.eqb_spec c sep) as [->|_]; [done|].
  by rewrite IH.
Qed.

(** Behind the last separator comes the last part, and there are at
    least two parts. *)
Lemma splitOn_last (sep : codeunit) (l t : jsstring) :
  sep ∉ t →
  last (splitOn sep (l ++ sep :: t)) = Some t
  ∧ 2 ≤ length (splitOn sep (l ++ sep :: t)).
Proof.
  intros Ht. induction l as [|x l [IHlast IHlen]]; simpl.
  - rewrite N.eqb_refl, splitOn_whole by done. split; [done|simpl; lia].
  - destruct (N.eqb_spec x sep) as [->|_].
    + destruct (splitOn sep (l ++ sep :: t)) as [|p ps]; [simpl in IHlen; lia|].
      split; [done|simpl in *; lia].
    + destruct (splitOn sep (l ++ sep :: t)) as [|p [|p' ps]];
        [simpl in IHlen; lia|simpl in IHlen; lia|].
      split; [done|simpl in *; lia].
Qed.

End Masks.

(** X21. In demo mode the local part of a user name is never shown: a
    user name with an [@] becomes [user@] and what follows the first
    [@] (or [example.com] when nothing follows), whatever stands in
    front of it; a user name without [@] becomes [user]; the empty one
    stays empty.  Without demo mode the user name is shown as it is. *)
Theorem maskUsername_hides_local :
  (∀ username, maskUsername false username = username)
  ∧ maskUsername true [] = []
  ∧ (∀ username, username ≠ [] → 64%N ∉ username →
       maskUsername true username = lit "user")
  ∧ (∀ localPart dom, 64%N ∉ localPart →
       maskUsername true (localPart ++ [64%N] ++ dom)
       = lit "user@" ++ (if truthy dom then dom else lit "example.com")).
Proof.
  split; [done|]. split; [done|]. split.
  - intros username Hne Hat. unfold maskUsername.
    destruct username; [done|]. simpl negb. cbn [negb truthy].
    by rewrite indexOfUnit_none.
  - intros localPart dom Hat. unfold maskUsername.
    change (localPart ++ [64%N] ++ dom) with (localPart ++ 64%N :: dom).
    assert (Hne : truthy (localPart ++ 64%N :: dom) = true)
      by (by destruct localPart).
    rewrite Hne. cbn [negb].
    rewrite indexOfUnit_first by done.
    replace (drop (length localPart + 1) (localPart ++ 64%N :: dom))
      with dom; [done|].
    rewrite drop_app_ge by lia.
    replace (length localPart + 1 - length localPart) with 1 by lia. done.
Qed.

Lemma maskUsername_hides_local_witness :
  maskUsername true (lit "ann.smith" ++ [64%N] ++ lit "mail.example.org")
  = lit "user@" ++ lit "mail.example.org"
  ∧ maskUsername true (lit "ann") = lit "user".
Proof.
  destruct maskUsername_hides_local as (_ & _ & Hplain & Hat).
  split.
  - rewrite Hat; [reflexivity|]. vm_compute.
    intros H. repeat (apply elem_of_cons in H as [H|H]; [discriminate|]).
    inversion H.
  - apply Hplain; [discriminate|]. vm_compute.
    intros H. repeat (apply elem_of_cons in H as [H|H]; [discriminate|]).
    inversion H.
Defined.

(** X22. In demo mode only the last label of a domain is shown: a domain
    without dot becomes [site.example], and a domain with a dot becomes
    [site.] and what follows its last dot, whatever stands in front of
    that dot.  Without demo mode the domain is shown as it is. *)
Theorem maskDomain_keeps_last_label :
  (∀ domain, maskDomain false domain = domain)
  ∧ (∀ domain, 46%N ∉ domain → maskDomain true domain = lit "site.example")
  ∧ (∀ front tld, 46%N ∉ tld →
       maskDomain true (front ++ [46%N] ++ tld) = lit "site." ++ tld).
Proof.
  split; [done|]. split.
  - intros domain Hdot. unfold maskDomain. cbn [negb].
    by rewrite splitOn_whole.
  - intros front tld Hdot. unfold maskDomain. cbn [negb]. cbv zeta.
    destruct (splitOn_last 46%N front tld Hdot) as [Hlast Hlen].
    change (front ++ [46%N] ++ tld) with (front ++ 46%N :: tld).
    unfold codeunit in *. rewrite Hlast.
    destruct (Nat.leb_spec (length (splitOn 46%N (front ++ 46%N :: tld))) 1);
      [lia|done].
Qed.

Lemma maskDomain_keeps_last_label_witness :
  maskDomain true (lit "intranet.mycompany" ++ [46%N] ++ lit "org")
  = lit "site." ++ lit "org"
  ∧ maskDomain true (lit "localhost") = lit "site.example".
Proof.
  destruct maskDomain_keeps_last_label as (_ & Hnodot & Hdot).
  split.
  - apply Hdot. vm_compute.
    intros H. repeat (apply elem_of_cons in H as [H|H]; [discriminate|]).
    inversion H.
  - apply Hnodot. vm_compute.
    intros H. repeat (apply elem_of_cons in H as [H|H]; [discriminate|]).
    inversion H.
Defined.
